(** * The AppInstance reconciler

    A shallow embedding of [internal/controller/appinstance_controller.go]
    and of the types of [api/v1alpha1/appinstance_types.go], with the
    properties of one reconciliation pass stated over it.

    The controller talks to the API server through [client.Client].  That
    client is a collaborator outside the repository; here it is an in-memory
    object store with a script of injected failures, in the manner of the
    fake client the controller tests of such operators use. *)

From Stdlib Require Import Ascii.
From stdpp Require Import gmap strings list pretty.
From Equations Require Import Equations.

Local Open Scope Z_scope.

(** ** API types *)

(** [metav1.OwnerReference], with the two [*bool] fields as booleans (the
    controller only ever builds references with both set). *)
Record OwnerReference := {
  APIVersion : string;
  Kind : string;
  OwnerName : string;
  OwnerUID : string;
  Controller : bool;
  BlockOwnerDeletion : bool
}.

(** The fields of [metav1.ObjectMeta] the controller reads or writes.
    [Labels] is a Go [map[string]string]. *)
Record ObjectMeta := {
  Name : string;
  Namespace : string;
  UID : string;
  Labels : gmap string string;
  OwnerReferences : list OwnerReference
}.

Record Container := {
  ContainerName : string;
  Image : string;
  Command : list string
}.

Record PodSpec := { Containers : list Container }.

Record Pod := { PodMeta : ObjectMeta; PodSpecOf : PodSpec }.

Record PodList := { Items : list Pod }.

(** [AppInstanceSpec]: [Size int].  A Go [int] is a signed 64-bit integer;
    it is a [Z] here.  The controller's arithmetic on it is [i++] under the
    guard [i < desiredSize] and [i--] after a successful index [Items[i]]
    (so [0 <= i]), and [currentSize - 1] with [currentSize] a length: none
    of these can leave the 64-bit range, so no wrap-around is written. *)
Record AppInstanceSpec := { Size : Z }.

(** [AppInstanceStatus]: [Nodes []string]. *)
Record AppInstanceStatus := { Nodes : list string }.

Record AppInstance := {
  Meta : ObjectMeta;
  Spec : AppInstanceSpec;
  Status : AppInstanceStatus
}.

(** [ctrl.Request]: a [types.NamespacedName]. *)
Record Request := { ReqNamespace : string; ReqName : string }.

(** [ctrl.Result]. *)
Record Result := { Requeue : bool; RequeueAfter : Z }.

Definition emptyResult : Result := {| Requeue := false; RequeueAfter := 0 |}.

(** The schema of [spec.size] in the CRD
    ([config/crd/bases/mygroup.mydomain.com_appinstances.yaml], lines 42-46):
    [type: integer], listed under [required], and no [minimum]. *)
Record IntegerSchema := {
  schemaRequired : bool;
  schemaMinimum : option Z;
  schemaMaximum : option Z
}.

Definition crdSizeSchema : IntegerSchema :=
  {| schemaRequired := true; schemaMinimum := None; schemaMaximum := None |}.

(** Structural validation of an integer field against its schema: a required
    field must be present, and a present value must respect the bounds the
    schema declares. *)
Definition validateInteger (s : IntegerSchema) (v : option Z) : bool :=
  match v with
  | None => negb (schemaRequired s)
  | Some z =>
      match schemaMinimum s with Some lo => lo <=? z | None => true end
      && match schemaMaximum s with Some hi => z <=? hi | None => true end
  end.

(** ** Errors *)

(** Go [error] values returned by the client.  [nil] is [None] in an
    [option error]. *)
Inductive error :=
| ErrNotFound
| ErrAlreadyExists
| ErrOther (reason : string).

(** [errors.IsNotFound]. *)
Definition IsNotFound (e : error) : bool :=
  match e with ErrNotFound => true | _ => false end.

(** ** The object store behind [client.Client] *)

(** The calls the controller makes on the client, as the store records
    them. *)
Inductive Call :=
| CallGet (ns name : string)
| CallList (ns : string) (selector : gmap string string)
| CallCreate (p : Pod)
| CallDelete (p : Pod)
| CallStatusUpdate (a : AppInstance).

(** The cluster as the controller sees it.
    - [apps]: the AppInstance objects, by namespace and name;
    - [pods]: the Pod objects the store holds, kept in the order in which a
      List returns them.  The API promises no order of listing.  The
      properties below are about any cluster, so about any order of the
      pods a pass finds.  A pod created later is kept last: that is this
      store's choice, and the theorems on the specification and on the
      controller that speak of a listing made after creations (the pods it
      returns, the status written from it) state it up to permutation;
    - [faults]: the script of injected failures: each client call consumes
      the head; [Some e] makes that call fail with [e] and change nothing,
      [None] (or an exhausted script) lets it through;
    - [calls]: every client call made so far, oldest first;
    - [logged]: what the controller wrote with [log.Error]. *)
Record Cluster := {
  apps : gmap (string * string) AppInstance;
  pods : list Pod;
  faults : list (option error);
  calls : list Call;
  logged : list (error * string)
}.

Definition podKey (p : Pod) : string * string :=
  (Namespace (PodMeta p), Name (PodMeta p)).

(** The cluster once the calls [cs] have been received: they are recorded,
    and each has consumed one entry of the failure script. *)
Definition received (cs : list Call) (w : Cluster) : Cluster :=
  {| apps := apps w; pods := pods w;
     faults := drop (length cs) (faults w);
     calls := calls w ++ cs; logged := logged w |}.

(** What every client call does first: the failure scripted for it, if any,
    and the cluster with the call received. *)
Definition enter (c : Call) (w : Cluster) : option error * Cluster :=
  (match faults w with Some e :: _ => Some e | _ => None end, received [c] w).

Definition setPods (ps : list Pod) (w : Cluster) : Cluster :=
  {| apps := apps w; pods := ps; faults := faults w;
     calls := calls w; logged := logged w |}.

Definition setApps (m : gmap (string * string) AppInstance) (w : Cluster) : Cluster :=
  {| apps := m; pods := pods w; faults := faults w;
     calls := calls w; logged := logged w |}.

(** [r.Get(ctx, key, &app)]. *)
Definition clientGet (ns name : string) (w : Cluster) : (AppInstance + error) * Cluster :=
  match enter (CallGet ns name) w with
  | (Some e, w1) => (inr e, w1)
  | (None, w1) =>
      match apps w1 !! (ns, name) with
      | Some a => (inl a, w1)
      | None => (inr ErrNotFound, w1)
      end
  end.

(** [client.InNamespace(ns)] and [client.MatchingLabels(selector)]: the
    object is in the namespace and every pair of the selector is one of its
    labels. *)
Definition listed (ns : string) (selector : gmap string string) (p : Pod) : Prop :=
  Namespace (PodMeta p) = ns
  ∧ map_Forall (λ k v, Labels (PodMeta p) !! k = Some v) selector.

#[global] Instance listed_dec ns selector p : Decision (listed ns selector p).
Proof. unfold listed. apply _. Defined.

(** [r.List(ctx, &podList, InNamespace(ns), MatchingLabels(selector))]: the
    objects selected, in the order the store keeps them. *)
Definition clientList (ns : string) (selector : gmap string string) (w : Cluster)
  : (PodList + error) * Cluster :=
  match enter (CallList ns selector) w with
  | (Some e, w1) => (inr e, w1)
  | (None, w1) => (inl {| Items := filter (listed ns selector) (pods w1) |}, w1)
  end.

(** [r.Create(ctx, &pod)]: a second object of the same namespace and name is
    refused; a new object is added to the store.  That it is put last is
    this store's choice (see [Cluster]). *)
Definition clientCreate (p : Pod) (w : Cluster) : option error * Cluster :=
  match enter (CallCreate p) w with
  | (Some e, w1) => (Some e, w1)
  | (None, w1) =>
      if decide (podKey p ∈ podKey <$> pods w1) then (Some ErrAlreadyExists, w1)
      else (None, setPods (pods w1 ++ [p]) w1)
  end.

(** [r.Delete(ctx, &pod)]: the object of that namespace and name is
    removed. *)
Definition clientDelete (p : Pod) (w : Cluster) : option error * Cluster :=
  match enter (CallDelete p) w with
  | (Some e, w1) => (Some e, w1)
  | (None, w1) =>
      if decide (podKey p ∈ podKey <$> pods w1)
      then (None, setPods (filter (λ q, podKey q ≠ podKey p) (pods w1)) w1)
      else (Some ErrNotFound, w1)
  end.

(** [r.Status().Update(ctx, app)]: the status subresource of the stored
    object is replaced; its metadata and spec stay. *)
Definition clientStatusUpdate (a : AppInstance) (w : Cluster) : option error * Cluster :=
  match enter (CallStatusUpdate a) w with
  | (Some e, w1) => (Some e, w1)
  | (None, w1) =>
      let k := (Namespace (Meta a), Name (Meta a)) in
      match apps w1 !! k with
      | Some old =>
          (None, setApps (<[k := {| Meta := Meta old; Spec := Spec old; Status := Status a |}]> (apps w1)) w1)
      | None => (Some ErrNotFound, w1)
      end
  end.

(** [log.Error(err, msg)]. *)
Definition logError (e : error) (msg : string) (w : Cluster) : Cluster :=
  {| apps := apps w; pods := pods w; faults := faults w;
     calls := calls w; logged := logged w ++ [(e, msg)] |}.

(** ** The controller *)

(** A call of the controller either returns or panics (Go's run-time panic
    on an index out of range); either way the cluster is left as the calls
    made so far changed it. *)
Inductive outcome (A : Type) :=
| Returned (a : A)
| Panicked.
Arguments Returned {A} a.
Arguments Panicked {A}.

Definition M (A : Type) : Type := Cluster → outcome A * Cluster.

Definition ret {A} (a : A) : M A := λ w, (Returned a, w).

Definition bind {A B} (m : M A) (k : A → M B) : M B :=
  λ w, match m w with
       | (Returned a, w1) => k a w1
       | (Panicked, w1) => (Panicked, w1)
       end.

(** A client call or a log write: it always returns. *)
Definition call {A} (f : Cluster → A * Cluster) : M A :=
  λ w, let '(a, w1) := f w in (Returned a, w1).

Definition logErr (e : error) (msg : string) : M unit :=
  λ w, (Returned tt, logError e msg w).

Notation "x <- m ;; k" := (bind m (λ x, k))
  (at level 100, m at next level, right associativity).
Notation "m ;;; k" := (bind m (λ _, k))
  (at level 100, right associativity).

(** [getAppInstance]. *)
Definition getAppInstance (req : Request) : M (AppInstance + error) :=
  call (clientGet (ReqNamespace req) (ReqName req)).

(** [getPodList]: the pods of the request's namespace labelled
    [app=<app.Name>]. *)
Definition getPodList (req : Request) (app : AppInstance) : M (PodList + error) :=
  let opts := ({[ "app" := Name (Meta app) ]} : gmap string string) in
  call (clientList (ReqNamespace req) opts).

(** [fmt.Sprintf("%s-pod-%d", app.Name, i)]. *)
Definition podName (app : AppInstance) (i : Z) : string :=
  Name (Meta app) +:+ "-pod-" +:+ pretty i.

(** [mygroupv1alpha1.GroupVersion.WithKind("AppInstance")]: the group and
    version are those the CRD declares ([group: mygroup.mydomain.com],
    version [v1alpha1]). *)
Definition groupVersion : string := "mygroup.mydomain.com/v1alpha1".

(** [metav1.NewControllerRef(app, gvk)]. *)
Definition NewControllerRef (app : AppInstance) : OwnerReference :=
  {| APIVersion := groupVersion;
     Kind := "AppInstance";
     OwnerName := Name (Meta app);
     OwnerUID := UID (Meta app);
     Controller := true;
     BlockOwnerDeletion := true |}.

(** The pod literal of [createPods] at index [i]. *)
Definition newPod (req : Request) (app : AppInstance) (i : Z) : Pod :=
  {| PodMeta :=
       {| Name := podName app i;
          Namespace := ReqNamespace req;
          UID := "";
          Labels := {[ "app" := Name (Meta app) ]};
          OwnerReferences := [NewControllerRef app] |};
     PodSpecOf :=
       {| Containers :=
            [ {| ContainerName := "busybox";
                 Image := "busybox";
                 Command := ["sleep"; "3600"] |} ] |} |}.

(** The loop of [createPods], entered with the index at [i]:
    [for ; i < desiredSize; i++ { ... }]. *)
Equations? createLoop (req : Request) (app : AppInstance) (desiredSize i : Z)
  (w : Cluster) : outcome (option error) * Cluster
  by wf (Z.to_nat (desiredSize - i)) lt :=
createLoop req app desiredSize i w with decide (i < desiredSize) := {
  | right _ := (Returned None, w)
  | left _ with clientCreate (newPod req app i) w := {
      | pair (Some err) w1 := (logErr err "Failed to create pod" ;;; ret (Some err)) w1
      | pair None w1 := createLoop req app desiredSize (i + 1) w1 } }.
Proof. lia. Qed.

(** [createPods]. *)
Definition createPods (req : Request) (app : AppInstance)
  (currentSize desiredSize : Z) : M (option error) :=
  createLoop req app desiredSize currentSize.

(** The loop of [deletePods], entered with the index at [i]:
    [for ; i >= desiredSize; i-- { ... }].  The element [podList.Items[i]]
    is taken with a Go [int] index: a negative index, or one at or beyond
    the length, panics. *)
Equations? deleteLoop (podList : PodList) (desiredSize i : Z)
  (w : Cluster) : outcome (option error) * Cluster
  by wf (Z.to_nat (i + 1)) lt :=
deleteLoop podList desiredSize i w with decide (i >= desiredSize) := {
  | right _ := (Returned None, w)
  | left _ with decide (0 ≤ i) := {
      | right _ := (Panicked, w)
      | left _ with Items podList !! Z.to_nat i := {
          | None := (Panicked, w)
          | Some pod with clientDelete pod w := {
              | pair (Some err) w1 :=
                  (logErr err "Failed to delete pod" ;;; ret (Some err)) w1
              | pair None w1 := deleteLoop podList desiredSize (i - 1) w1 } } } }.
Proof. lia. Qed.

(** [deletePods]. *)
Definition deletePods (podList : PodList) (currentSize desiredSize : Z)
  : M (option error) :=
  deleteLoop podList desiredSize (currentSize - 1).

(** [scalePods]. *)
Definition scalePods (req : Request) (app : AppInstance) (podList : PodList)
  : M (option error) :=
  let desiredSize := Size (Spec app) in
  let currentSize := Z.of_nat (length (Items podList)) in
  if decide (currentSize < desiredSize) then
    createPods req app currentSize desiredSize
  else if decide (currentSize > desiredSize) then
    deletePods podList currentSize desiredSize
  else ret None.

(** [app.Status.Nodes = podNames]. *)
Definition setNodes (app : AppInstance) (podNames : list string) : AppInstance :=
  {| Meta := Meta app; Spec := Spec app; Status := {| Nodes := podNames |} |}.

(** [updateStatus]. *)
Definition updateStatus (app : AppInstance) (podList : PodList) : M (option error) :=
  let podNames := foldl (λ acc pod, acc ++ [Name (PodMeta pod)]) [] (Items podList) in
  let app := setNodes app podNames in
  r <- call (clientStatusUpdate app) ;;
  match r with
  | Some err => logErr err "Failed to update status" ;;; ret (Some err)
  | None => ret None
  end.

(** [Reconcile]. *)
Definition Reconcile (req : Request) : M (Result * option error) :=
  r <- getAppInstance req ;;
  match r with
  | inr err =>
      if IsNotFound err then ret (emptyResult, None)
      else ret (emptyResult, Some err)
  | inl app =>
      r <- getPodList req app ;;
      match r with
      | inr err => ret (emptyResult, Some err)
      | inl podList =>
          r <- scalePods req app podList ;;
          match r with
          | Some err => ret (emptyResult, Some err)
          | None =>
              r <- updateStatus app podList ;;
              match r with
              | Some err => ret (emptyResult, Some err)
              | None => ret (emptyResult, None)
              end
          end
      end
  end.

(** * The vocabulary of the properties *)

(** ** Clusters reached by a batch *)

(** The next [n] client calls meet no injected failure. *)
Definition quiet (n : nat) (fs : list (option error)) : Prop :=
  Forall (λ f, f = None) (take n fs).

(** The pods [createPods] builds for the indices [i], ..., [i + k - 1]. *)
Definition newPods (req : Request) (app : AppInstance) (i : Z) (k : nat) : list Pod :=
  newPod req app <$> seqZ i (Z.of_nat k).

(** The cluster after [k] creations from index [i] that all went through. *)
Definition grown (req : Request) (app : AppInstance) (i : Z) (k : nat) (w : Cluster) : Cluster :=
  setPods (pods w ++ newPods req app i k)
          (received (CallCreate <$> newPods req app i k) w).

(** None of the names for the indices [i], ..., [i + k - 1] is taken in the
    request's namespace. *)
Definition namesFree (req : Request) (app : AppInstance) (i : Z) (k : nat) (w : Cluster) : Prop :=
  ∀ j, i ≤ j < i + Z.of_nat k → podKey (newPod req app j) ∉ podKey <$> pods w.

(** The cluster after the batch stopped at its creation number [k]. *)
Definition createAborted (req : Request) (app : AppInstance) (i : Z) (k : nat)
  (e : error) (w : Cluster) : Cluster :=
  logError e "Failed to create pod"
    (received [CallCreate (newPod req app (i + Z.of_nat k))] (grown req app i k w)).

(** The [k] elements of [items] just below position [hi], highest index
    first: what [k] iterations of the delete loop entered at index [hi - 1]
    pass to Delete. *)
Definition victims (items : list Pod) (hi k : nat) : list Pod :=
  reverse (drop (hi - k) (take hi items)).

(** The cluster after the deletions of [ds], in that order, all went
    through. *)
Definition shrunk (ds : list Pod) (w : Cluster) : Cluster :=
  setPods (filter (λ q, podKey q ∉ podKey <$> ds) (pods w))
          (received (CallDelete <$> ds) w).

(** The cluster after the batch stopped at its deletion number [k]. *)
Definition deleteAborted (items : list Pod) (hi k : nat) (p : Pod)
  (e : error) (w : Cluster) : Cluster :=
  logError e "Failed to delete pod"
    (received [CallDelete p] (shrunk (victims items hi k) w)).

(** ** What a pass reads, calls and writes *)

(** What [getPodList] returns on a cluster: the pods of the request's
    namespace labelled for the instance, in listing order. *)
Definition observed (req : Request) (app : AppInstance) (w : Cluster) : list Pod :=
  filter (listed (ReqNamespace req) {[ "app" := Name (Meta app) ]}) (pods w).

(** The names [updateStatus] collects. *)
Definition podNames (items : list Pod) : list string :=
  (λ pod, Name (PodMeta pod)) <$> items.

(** The status the store holds for the request's instance. *)
Definition statusNodes (req : Request) (w : Cluster) : option (list string) :=
  Nodes ∘ Status <$> apps w !! (ReqNamespace req, ReqName req).

(** The instance is stored under the key its own metadata gives. *)
Definition storedAs (req : Request) (app : AppInstance) (w : Cluster) : Prop :=
  apps w !! (ReqNamespace req, ReqName req) = Some app
  ∧ Namespace (Meta app) = ReqNamespace req
  ∧ Name (Meta app) = ReqName req.

(** Object keys are unique in the store. *)
Definition uniqueKeys (w : Cluster) : Prop := NoDup (podKey <$> pods w).

(** The pods the calls [cs] asked to create, and those they asked to
    delete. *)
Definition creations (cs : list Call) : list Pod :=
  omap (λ c, match c with CallCreate p => Some p | _ => None end) cs.

Definition deletions (cs : list Call) : list Pod :=
  omap (λ c, match c with CallDelete p => Some p | _ => None end) cs.

(** The instances the calls [cs] asked to write the status of. *)
Definition statusWrites (cs : list Call) : list AppInstance :=
  omap (λ c, match c with CallStatusUpdate a => Some a | _ => None end) cs.

(** The two reads of a pass, when both go through. *)
Definition reads (req : Request) (app : AppInstance) : list Call :=
  [CallGet (ReqNamespace req) (ReqName req);
   CallList (ReqNamespace req) {[ "app" := Name (Meta app) ]}].

(** The status write, when it goes through. *)
Definition statusWritten (app : AppInstance) (items : list Pod) (w : Cluster) : Cluster :=
  setApps (<[(Namespace (Meta app), Name (Meta app)) := setNodes app (podNames items)]> (apps w))
          (received [CallStatusUpdate (setNodes app (podNames items))] w).

(** ** Example clusters *)

(** An instance named [app] in namespace [default]. *)
Definition exampleApp (size : Z) : AppInstance :=
  {| Meta := {| Name := "app"; Namespace := "default"; UID := "uid-1";
                Labels := ∅; OwnerReferences := [] |};
     Spec := {| Size := size |};
     Status := {| Nodes := [] |} |}.

Definition exampleReq : Request :=
  {| ReqNamespace := "default"; ReqName := "app" |}.

(** A cluster holding the example instance with desired size [size], the
    instance's pods of indices [0], ..., [have - 1], and the failure script
    [fs]. *)
Definition exampleCluster (size : Z) (have : nat) (fs : list (option error)) : Cluster :=
  {| apps := {[ ("default", "app") := exampleApp size ]};
     pods := newPods exampleReq (exampleApp size) 0 have;
     faults := fs;
     calls := [];
     logged := [] |}.

(** A cluster without the instance. *)
Definition emptyCluster : Cluster :=
  {| apps := ∅; pods := []; faults := []; calls := []; logged := [] |}.

(** ** The outcomes of a batch and of a pass *)

(** Every instance is stored under the key its own metadata gives. *)
Definition keyed (w : Cluster) : Prop :=
  ∀ k a, apps w !! k = Some a → k = (Namespace (Meta a), Name (Meta a)).

(** The ways [scalePods] can end on the list [items], entered on the
    cluster [w0]: the result and the cluster it leaves.  In order: a growth
    that went through; a growth stopped at its creation number [k] (the
    names of the pods created were free, or the store would have refused
    them); a shrink that went through; a shrink stopped at its deletion number [k];
    a shrink toward a negative size, which panics once every element is
    deleted; equal counts. *)
Definition scaleOutcome (req : Request) (app : AppInstance) (items : list Pod)
  (w0 : Cluster) (r : outcome (option error)) (wS : Cluster) : Prop :=
  let M := length items in
  let N := Size (Spec app) in
  (Z.of_nat M < N ∧ r = Returned None
   ∧ namesFree req app (Z.of_nat M) (Z.to_nat (N - Z.of_nat M)) w0
   ∧ wS = grown req app (Z.of_nat M) (Z.to_nat (N - Z.of_nat M)) w0)
  ∨ (∃ (k : nat) e, Z.of_nat M + Z.of_nat k < N ∧ r = Returned (Some e)
       ∧ namesFree req app (Z.of_nat M) k w0
       ∧ wS = createAborted req app (Z.of_nat M) k e w0)
  ∨ (0 ≤ N < Z.of_nat M ∧ r = Returned None
     ∧ wS = shrunk (victims items M (M - Z.to_nat N)) w0)
  ∨ (∃ (k : nat) e p, Z.of_nat k < Z.of_nat M - N ∧ (k < M)%nat
       ∧ items !! (M - 1 - k)%nat = Some p ∧ r = Returned (Some e)
       ∧ wS = deleteAborted items M k p e w0)
  ∨ (N < 0 ∧ r = Panicked ∧ wS = shrunk (victims items M M) w0)
  ∨ (Z.of_nat M = N ∧ r = Returned None ∧ wS = w0).

(** The cluster after a status write that the store failed. *)
Definition statusAborted (app : AppInstance) (items : list Pod) (e : error)
  (w : Cluster) : Cluster :=
  logError e "Failed to update status"
    (received [CallStatusUpdate (setNodes app (podNames items))] w).

(** The ways a pass can end when the instance is in the store: the result
    and the cluster it leaves.  In order: the Get failed; the List failed;
    [scalePods] panicked; [scalePods] returned an error; the status write
    went through; the status write failed. *)
Definition passOutcome (req : Request) (app : AppInstance) (w : Cluster)
  (r : outcome (Result * option error)) (w' : Cluster) : Prop :=
  let items := observed req app w in
  let w0 := received (reads req app) w in
  (∃ e, faults w !! 0%nat = Some (Some e)
        ∧ r = Returned (emptyResult, if IsNotFound e then None else Some e)
        ∧ w' = received [CallGet (ReqNamespace req) (ReqName req)] w)
  ∨ (∃ e, r = Returned (emptyResult, Some e) ∧ w' = w0)
  ∨ (∃ rS wS, scaleOutcome req app items w0 rS wS
       ∧ ((rS = Panicked ∧ r = Panicked ∧ w' = wS)
          ∨ (∃ e, rS = Returned (Some e) ∧ r = Returned (emptyResult, Some e) ∧ w' = wS)
          ∨ (rS = Returned None ∧ r = Returned (emptyResult, None)
             ∧ w' = statusWritten app items wS)
          ∨ (∃ e, rS = Returned None ∧ r = Returned (emptyResult, Some e)
               ∧ w' = statusAborted app items e wS))).

(** [n] passes in a row for the same request, the store untouched in
    between: the results, first pass first, and the cluster left. *)
Fixpoint passes (n : nat) (req : Request) (w : Cluster)
  : list (outcome (Result * option error)) * Cluster :=
  match n with
  | O => ([], w)
  | S n' =>
      let '(r, w1) := Reconcile req w in
      let '(rs, w2) := passes n' req w1 in
      (r :: rs, w2)
  end.

(** The example instance with desired size 3 and the pods of indices 0 and
    2: the pod of index 1 is gone. *)
Definition gapCluster : Cluster :=
  {| apps := {[ ("default", "app") := exampleApp 3 ]};
     pods := [newPod exampleReq (exampleApp 3) 0; newPod exampleReq (exampleApp 3) 2];
     faults := [];
     calls := [];
     logged := [] |}.

(** The example instance with desired size 5 and the pods of indices 0 and
    3: the name the growth reaches at its second creation is taken. *)
Definition sparseCluster : Cluster :=
  {| apps := {[ ("default", "app") := exampleApp 5 ]};
     pods := [newPod exampleReq (exampleApp 5) 0; newPod exampleReq (exampleApp 5) 3];
     faults := [];
     calls := [];
     logged := [] |}.

(** * Properties *)

(** ** The loops, one iteration at a time *)

Lemma createLoop_eq req app desiredSize i w :
  createLoop req app desiredSize i w =
  if decide (i < desiredSize) then
    match clientCreate (newPod req app i) w with
    | (Some err, w1) => (Returned (Some err), logError err "Failed to create pod" w1)
    | (None, w1) => createLoop req app desiredSize (i + 1) w1
    end
  else (Returned None, w).
Proof.
  simp createLoop. destruct (decide (i < desiredSize)); simpl; [|done].
  destruct (clientCreate (newPod req app i) w) as [[err|] w1]; done.
Qed.

Lemma deleteLoop_eq podList desiredSize i w :
  deleteLoop podList desiredSize i w =
  if decide (i >= desiredSize) then
    if decide (0 ≤ i) then
      match Items podList !! Z.to_nat i with
      | None => (Panicked, w)
      | Some pod =>
          match clientDelete pod w with
          | (Some err, w1) => (Returned (Some err), logError err "Failed to delete pod" w1)
          | (None, w1) => deleteLoop podList desiredSize (i - 1) w1
          end
      end
    else (Panicked, w)
  else (Returned None, w).
Proof.
  simp deleteLoop. destruct (decide (i >= desiredSize)); simpl; [|done].
  destruct (decide (0 ≤ i)); simpl; [|done].
  destruct (Items podList !! Z.to_nat i) as [pod|]; simpl; [|done].
  destruct (clientDelete pod w) as [[err|] w1]; done.
Qed.

(** ** The failure script *)

Lemma quiet_nil n : quiet n [].
Proof. unfold quiet. rewrite take_nil. constructor. Qed.

Lemma quiet_0 fs : quiet 0 fs.
Proof. constructor. Qed.

Lemma quiet_S n fs : quiet (S n) fs → quiet 1 fs ∧ quiet n (drop 1 fs).
Proof.
  unfold quiet. destruct fs as [|f fs]; simpl.
  - rewrite take_nil. by split.
  - rewrite take_0. inversion 1; subst. split; [by repeat constructor | done].
Qed.

Lemma quiet_add a b fs : quiet (a + b) fs → quiet a fs ∧ quiet b (drop a fs).
Proof.
  revert fs. induction a as [|a IH]; intros fs H; simpl in *.
  - split; [apply quiet_0 | done].
  - destruct fs as [|f fs]; [split; apply quiet_nil|].
    unfold quiet in *. simpl in *. inversion H; subst.
    destruct (IH fs) as [H1 H2]; [done|]. split; [by constructor | done].
Qed.

Lemma quiet_le a b fs : (a ≤ b)%nat → quiet b fs → quiet a fs.
Proof.
  intros Hle H. replace b with (a + (b - a))%nat in H by lia.
  by apply quiet_add in H as [? _].
Qed.

Lemma quiet_replicate n k fs : (n ≤ k)%nat → quiet n (replicate k None ++ fs).
Proof.
  intros Hle. unfold quiet. rewrite take_app_le by (rewrite length_replicate; lia).
  rewrite take_replicate. apply Forall_replicate. done.
Qed.

Lemma received_nil w : received [] w = w.
Proof. destruct w. unfold received. simpl. by rewrite app_nil_r. Qed.

Lemma received_app cs1 cs2 w :
  received cs2 (received cs1 w) = received (cs1 ++ cs2) w.
Proof.
  unfold received. simpl. f_equal.
  - rewrite drop_drop, length_app. done.
  - by rewrite app_assoc.
Qed.

Lemma enter_quiet c w : quiet 1 (faults w) → enter c w = (None, received [c] w).
Proof.
  unfold enter, quiet. destruct (faults w) as [|[e|] fs]; simpl; try done.
  rewrite take_0. inversion 1; subst. done.
Qed.

Lemma enter_fault c w e :
  faults w !! 0%nat = Some (Some e) → enter c w = (Some e, received [c] w).
Proof. unfold enter. destruct (faults w) as [|[e'|] fs]; simpl; congruence. Qed.

(** ** Each client call, when it goes through and when it is failed *)

Lemma clientCreate_ok p w :
  quiet 1 (faults w) → podKey p ∉ podKey <$> pods w →
  clientCreate p w = (None, setPods (pods w ++ [p]) (received [CallCreate p] w)).
Proof.
  intros Hq Hfresh. unfold clientCreate. rewrite enter_quiet by done. simpl.
  by rewrite decide_False.
Qed.

Lemma clientCreate_fault p w e :
  faults w !! 0%nat = Some (Some e) →
  clientCreate p w = (Some e, received [CallCreate p] w).
Proof. intros H. unfold clientCreate. by rewrite (enter_fault _ _ e). Qed.

Lemma clientCreate_taken p w :
  quiet 1 (faults w) → podKey p ∈ podKey <$> pods w →
  clientCreate p w = (Some ErrAlreadyExists, received [CallCreate p] w).
Proof.
  intros Hq Hin. unfold clientCreate. rewrite enter_quiet by done. simpl.
  by rewrite decide_True.
Qed.

Lemma clientDelete_ok p w :
  quiet 1 (faults w) → podKey p ∈ podKey <$> pods w →
  clientDelete p w =
  (None, setPods (filter (λ q, podKey q ≠ podKey p) (pods w)) (received [CallDelete p] w)).
Proof.
  intros Hq Hin. unfold clientDelete. rewrite enter_quiet by done. simpl.
  by rewrite decide_True.
Qed.

Lemma clientDelete_fault p w e :
  faults w !! 0%nat = Some (Some e) →
  clientDelete p w = (Some e, received [CallDelete p] w).
Proof. intros H. unfold clientDelete. by rewrite (enter_fault _ _ e). Qed.

Lemma clientGet_ok ns name w a :
  quiet 1 (faults w) → apps w !! (ns, name) = Some a →
  clientGet ns name w = (inl a, received [CallGet ns name] w).
Proof.
  intros Hq Ha. unfold clientGet. rewrite enter_quiet by done. simpl. by rewrite Ha.
Qed.

Lemma clientList_ok ns selector w :
  quiet 1 (faults w) →
  clientList ns selector w =
  (inl {| Items := filter (listed ns selector) (pods w) |},
   received [CallList ns selector] w).
Proof. intros Hq. unfold clientList. by rewrite enter_quiet. Qed.

Lemma clientStatusUpdate_ok a w old :
  quiet 1 (faults w) →
  apps w !! (Namespace (Meta a), Name (Meta a)) = Some old →
  clientStatusUpdate a w =
  (None,
   setApps (<[(Namespace (Meta a), Name (Meta a)) :=
                {| Meta := Meta old; Spec := Spec old; Status := Status a |}]> (apps w))
           (received [CallStatusUpdate a] w)).
Proof.
  intros Hq Ha. unfold clientStatusUpdate. rewrite enter_quiet by done. simpl.
  by rewrite Ha.
Qed.

(** ** Growing *)

Lemma podName_inj app i j : podName app i = podName app j → i = j.
Proof.
  unfold podName. intros H.
  apply (inj (String.append _)) in H. apply (inj (String.append _)) in H.
  by apply (inj pretty) in H.
Qed.

Lemma newPod_key req app i :
  podKey (newPod req app i) = (ReqNamespace req, podName app i).
Proof. done. Qed.

Lemma newPod_inj req app i j : podKey (newPod req app i) = podKey (newPod req app j) → i = j.
Proof. rewrite !newPod_key. intros [=H]. by apply podName_inj in H. Qed.

Lemma newPods_S req app i k :
  newPods req app i (S k) = newPod req app i :: newPods req app (i + 1) k.
Proof.
  unfold newPods. rewrite seqZ_cons by lia. simpl. do 3 f_equal; lia.
Qed.

Lemma newPods_snoc req app i k :
  newPods req app i (S k) = newPods req app i k ++ [newPod req app (i + Z.of_nat k)].
Proof. unfold newPods. by rewrite seqZ_S, fmap_app. Qed.

Lemma length_newPods req app i k : length (newPods req app i k) = k.
Proof. unfold newPods. rewrite length_fmap, length_seqZ. lia. Qed.

Lemma grown_0 req app i w : grown req app i 0 w = w.
Proof.
  unfold grown, newPods. simpl. rewrite received_nil.
  destruct w. unfold setPods. simpl. by rewrite app_nil_r.
Qed.

Lemma grown_S req app i k w :
  grown req app (i + 1) k (grown req app i 1 w) = grown req app i (S k) w.
Proof.
  unfold grown at 1 3. rewrite (newPods_S req app i k).
  unfold grown, setPods, received. simpl.
  rewrite <- !app_assoc. simpl. f_equal.
  rewrite drop_drop. f_equal.
Qed.

Lemma createLoop_step req app desiredSize i w :
  i < desiredSize → quiet 1 (faults w) → namesFree req app i 1 w →
  createLoop req app desiredSize i w =
  createLoop req app desiredSize (i + 1) (grown req app i 1 w).
Proof.
  intros Hlt Hq Hfree. rewrite createLoop_eq, decide_True by done.
  rewrite clientCreate_ok; [done | done |]. apply Hfree. lia.
Qed.

Lemma namesFree_grown req app i k w :
  namesFree req app i (S k) w → namesFree req app (i + 1) k (grown req app i 1 w).
Proof.
  intros Hfree j Hj. unfold grown, newPods. simpl.
  rewrite fmap_app, elem_of_app. intros [Hin | Hin].
  - revert Hin. apply Hfree. lia.
  - simpl in Hin. apply list_elem_of_singleton in Hin.
    apply newPod_inj in Hin. lia.
Qed.

(** [k] iterations that all go through. *)
Lemma createLoop_steps req app desiredSize k : ∀ i w,
  i + Z.of_nat k ≤ desiredSize → quiet k (faults w) → namesFree req app i k w →
  createLoop req app desiredSize i w =
  createLoop req app desiredSize (i + Z.of_nat k) (grown req app i k w).
Proof.
  induction k as [|k IH]; intros i w Hle Hq Hfree.
  - rewrite grown_0. f_equal. lia.
  - apply quiet_S in Hq as [Hq1 Hq].
    rewrite createLoop_step; [| lia | done | intros j Hj; apply Hfree; lia].
    rewrite IH; [| lia | done | by apply namesFree_grown].
    rewrite grown_S. f_equal. lia.
Qed.

(** The whole batch goes through. *)
Lemma createPods_ok req app currentSize desiredSize w :
  currentSize ≤ desiredSize →
  quiet (Z.to_nat (desiredSize - currentSize)) (faults w) →
  namesFree req app currentSize (Z.to_nat (desiredSize - currentSize)) w →
  createPods req app currentSize desiredSize w =
  (Returned None, grown req app currentSize (Z.to_nat (desiredSize - currentSize)) w).
Proof.
  intros Hle Hq Hfree. unfold createPods.
  rewrite (createLoop_steps _ _ _ (Z.to_nat (desiredSize - currentSize))); [| lia | done | done].
  rewrite createLoop_eq, decide_False by lia. done.
Qed.

(** The batch fails at its creation number [k] (counted from 0): the [k]
    before it went through, the rest are not attempted. *)
Lemma createPods_fault req app currentSize desiredSize w k e :
  currentSize + Z.of_nat k < desiredSize →
  quiet k (faults w) → faults w !! k = Some (Some e) →
  namesFree req app currentSize k w →
  createPods req app currentSize desiredSize w =
  (Returned (Some e),
   logError e "Failed to create pod"
     (received [CallCreate (newPod req app (currentSize + Z.of_nat k))]
               (grown req app currentSize k w))).
Proof.
  intros Hlt Hq He Hfree. unfold createPods.
  rewrite (createLoop_steps _ _ _ k); [| lia | done | done].
  rewrite createLoop_eq, decide_True by lia.
  rewrite (clientCreate_fault _ _ e); [done|].
  unfold grown. simpl. rewrite lookup_drop, length_fmap, length_newPods.
  by rewrite Nat.add_0_r.
Qed.

(** The batch stops at its creation number [k] because the name of that pod
    is taken: the store refuses it. *)
Lemma createPods_taken req app currentSize desiredSize w k :
  currentSize + Z.of_nat k < desiredSize →
  quiet (S k) (faults w) →
  namesFree req app currentSize k w →
  podKey (newPod req app (currentSize + Z.of_nat k)) ∈ podKey <$> pods w →
  createPods req app currentSize desiredSize w =
  (Returned (Some ErrAlreadyExists),
   logError ErrAlreadyExists "Failed to create pod"
     (received [CallCreate (newPod req app (currentSize + Z.of_nat k))]
               (grown req app currentSize k w))).
Proof.
  intros Hlt Hq Hfree Htaken. unfold createPods.
  replace (S k) with (k + 1)%nat in Hq by lia. apply quiet_add in Hq as [Hqk Hq1].
  rewrite (createLoop_steps _ _ _ k); [| lia | done | done].
  rewrite createLoop_eq, decide_True by lia.
  rewrite clientCreate_taken; [done | |].
  - unfold grown. simpl. by rewrite length_fmap, length_newPods.
  - unfold grown. simpl. rewrite fmap_app, elem_of_app. by left.
Qed.

(** A creation either goes through, and then the pod is the last of the
    listing, or fails, and then it only was received. *)
Lemma clientCreate_cases p w :
  clientCreate p w = (None, setPods (pods w ++ [p]) (received [CallCreate p] w))
  ∨ ∃ e, clientCreate p w = (Some e, received [CallCreate p] w).
Proof.
  unfold clientCreate, enter. destruct (faults w) as [|[e|] fs]; simpl;
    try case_decide; eauto.
Qed.

Lemma createAborted_S req app i k e w :
  createAborted req app (i + 1) k e (grown req app i 1 w) =
  createAborted req app i (S k) e w.
Proof.
  unfold createAborted. rewrite grown_S.
  by replace (i + 1 + Z.of_nat k) with (i + Z.of_nat (S k)) by lia.
Qed.

(** Whatever the store answers, [createPods] returns, and in one of two
    ways: the whole batch went through, or some creation failed and the
    batch stopped there. *)
Lemma createLoop_cases req app desiredSize (n : nat) : ∀ i w,
  n = Z.to_nat (desiredSize - i) →
  createLoop req app desiredSize i w = (Returned None, grown req app i n w)
  ∨ ∃ (k : nat) e, i + Z.of_nat k < desiredSize
      ∧ createLoop req app desiredSize i w =
        (Returned (Some e), createAborted req app i k e w).
Proof.
  induction n as [|n IH]; intros i w Hn; rewrite createLoop_eq.
  - rewrite decide_False by lia. left. by rewrite grown_0.
  - rewrite decide_True by lia.
    destruct (clientCreate_cases (newPod req app i) w) as [-> | [e ->]].
    + change (setPods _ _) with (grown req app i 1 w).
      destruct (IH (i + 1) (grown req app i 1 w) ltac:(lia)) as [-> | (k & e & Hk & ->)].
      * left. by rewrite grown_S.
      * right. exists (S k), e. split; [lia|]. by rewrite createAborted_S.
    + right. exists 0%nat, e. split; [lia|].
      unfold createAborted. rewrite grown_0.
      by replace (i + Z.of_nat 0) with i by lia.
Qed.

(** ** Shrinking *)

Lemma victims_0 items hi : victims items hi 0 = [].
Proof.
  unfold victims. rewrite Nat.sub_0_r, drop_ge; [done|].
  rewrite length_take. lia.
Qed.

Lemma victims_S items hi k p :
  (k ≤ hi)%nat → items !! hi = Some p →
  victims items (S hi) (S k) = p :: victims items hi k.
Proof.
  intros Hk Hp. unfold victims. pose proof (lookup_lt_Some _ _ _ Hp).
  rewrite (take_S_r _ _ p) by done. simpl.
  rewrite drop_app_le by (rewrite length_take; lia).
  by rewrite reverse_snoc.
Qed.

Lemma victims_all items des :
  (des ≤ length items)%nat →
  victims items (length items) (length items - des) = reverse (drop des items).
Proof.
  intros Hle. unfold victims. rewrite firstn_all.
  by replace (length items - (length items - des))%nat with des by lia.
Qed.

Lemma length_victims items hi k :
  (k ≤ hi ≤ length items)%nat → length (victims items hi k) = k.
Proof.
  intros H. unfold victims. rewrite length_reverse, length_drop, length_take. lia.
Qed.

Lemma victims_sublist items hi k :
  reverse (victims items hi k) `sublist_of` items.
Proof.
  unfold victims. rewrite reverse_involutive.
  etrans; [apply sublist_drop | apply sublist_take].
Qed.

Lemma shrunk_nil w : shrunk [] w = w.
Proof.
  unfold shrunk. simpl. rewrite received_nil.
  destruct w as [a ps f c l]. unfold setPods. simpl. f_equal.
  induction ps as [|p ps IH]; [done|].
  rewrite filter_cons_True; [by rewrite IH | apply not_elem_of_nil].
Qed.

Lemma shrunk_cons p ds w : shrunk ds (shrunk [p] w) = shrunk (p :: ds) w.
Proof.
  unfold shrunk, setPods, received. simpl. f_equal.
  - rewrite list_filter_filter. apply list_filter_iff. intros q.
    rewrite !not_elem_of_cons. split.
    + intros [? [? _]]; done.
    + intros [? ?]. split; [done | split; [done | apply not_elem_of_nil]].
  - by rewrite drop_drop.
  - by rewrite <- app_assoc.
Qed.

(** A deletion either goes through, and then the object of that key is gone
    from the listing, or fails, and then it only was received. *)
Lemma clientDelete_cases p w :
  clientDelete p w = (None, shrunk [p] w)
  ∨ ∃ e, clientDelete p w = (Some e, received [CallDelete p] w).
Proof.
  assert (Hs : setPods (filter (λ q, podKey q ≠ podKey p) (pods w))
                 (received [CallDelete p] w) = shrunk [p] w).
  { unfold shrunk. simpl. f_equal. apply list_filter_iff. intros q.
    rewrite not_elem_of_cons. split; [by split; [|apply not_elem_of_nil] | by intros [? _]]. }
  unfold clientDelete, enter. destruct (faults w) as [|[e|] fs]; simpl;
    try case_decide; rewrite ?Hs; eauto.
Qed.

Lemma clientDelete_ok' p w :
  quiet 1 (faults w) → podKey p ∈ podKey <$> pods w →
  clientDelete p w = (None, shrunk [p] w).
Proof.
  intros Hq Hin. destruct (clientDelete_cases p w) as [-> | [e He]]; [done|].
  rewrite clientDelete_ok in He by done. done.
Qed.

(** Whatever the store answers, the delete loop entered at index [hi - 1],
    within the list, ends in one of three ways: the whole batch went
    through; some deletion failed and the batch stopped there; or, for a
    negative [desiredSize] only, the index ran below 0 and the loop
    panicked, after deleting every element below [hi]. *)
Lemma deleteLoop_cases podList desiredSize (hi : nat) : ∀ w,
  (hi ≤ length (Items podList))%nat →
  (0 ≤ desiredSize
   ∧ deleteLoop podList desiredSize (Z.of_nat hi - 1) w =
     (Returned None,
      shrunk (victims (Items podList) hi (hi - Z.to_nat desiredSize)) w))
  ∨ (∃ (k : nat) e p,
       Z.of_nat k < Z.of_nat hi - desiredSize ∧ (k < hi)%nat
       ∧ Items podList !! (hi - 1 - k)%nat = Some p
       ∧ deleteLoop podList desiredSize (Z.of_nat hi - 1) w =
         (Returned (Some e), deleteAborted (Items podList) hi k p e w))
  ∨ (desiredSize < 0
     ∧ deleteLoop podList desiredSize (Z.of_nat hi - 1) w =
       (Panicked, shrunk (victims (Items podList) hi hi) w)).
Proof.
  induction hi as [|h IH]; intros w Hlen; rewrite deleteLoop_eq.
  - destruct (decide (Z.of_nat 0 - 1 >= desiredSize)).
    + rewrite decide_False by lia. right; right.
      rewrite victims_0, shrunk_nil. split; [lia | done].
    + left. rewrite victims_0, shrunk_nil. split; [lia | done].
  - destruct (decide (Z.of_nat (S h) - 1 >= desiredSize)).
    + rewrite decide_True by lia.
      replace (Z.to_nat (Z.of_nat (S h) - 1)) with h by lia.
      destruct (lookup_lt_is_Some_2 (Items podList) h ltac:(lia)) as [p Hp].
      rewrite Hp.
      destruct (clientDelete_cases p w) as [-> | [e ->]].
      * replace (Z.of_nat (S h) - 1 - 1) with (Z.of_nat h - 1) by lia.
        destruct (IH (shrunk [p] w) ltac:(lia))
          as [[Hd ->] | [(k & e & q & Hk & Hkh & Hq & ->) | [Hd ->]]].
        -- left. split; [done|]. rewrite shrunk_cons.
           replace (S h - Z.to_nat desiredSize)%nat
             with (S (h - Z.to_nat desiredSize)) by lia.
           by rewrite (victims_S _ _ _ p) by (done || lia).
        -- right; left. exists (S k), e, q. split; [lia|]. split; [lia|].
           split; [by replace (S h - 1 - S k)%nat with (h - 1 - k)%nat by lia|].
           unfold deleteAborted. rewrite shrunk_cons.
           by rewrite (victims_S _ _ _ p) by (done || lia).
        -- right; right. split; [done|]. rewrite shrunk_cons.
           by rewrite (victims_S _ _ _ p) by (done || lia).
      * right; left. exists 0%nat, e, p. split; [lia|]. split; [lia|].
        split; [by replace (S h - 1 - 0)%nat with h by lia|].
        unfold deleteAborted. by rewrite victims_0, shrunk_nil.
    + left. split; [lia|].
      replace (S h - Z.to_nat desiredSize)%nat with 0%nat by lia.
      by rewrite victims_0, shrunk_nil.
Qed.

(** [k] iterations that all go through: the objects to delete are in the
    store, under pairwise different keys. *)
Lemma deleteLoop_steps podList desiredSize (k : nat) : ∀ (hi : nat) w,
  (k ≤ hi ≤ length (Items podList))%nat →
  desiredSize ≤ Z.of_nat hi - Z.of_nat k →
  quiet k (faults w) →
  (∀ p, p ∈ victims (Items podList) hi k → podKey p ∈ podKey <$> pods w) →
  NoDup (podKey <$> victims (Items podList) hi k) →
  deleteLoop podList desiredSize (Z.of_nat hi - 1) w =
  deleteLoop podList desiredSize (Z.of_nat (hi - k) - 1)
    (shrunk (victims (Items podList) hi k) w).
Proof.
  induction k as [|k IH]; intros hi w Hk Hd Hq Hin Hnd.
  - rewrite victims_0, shrunk_nil. by rewrite Nat.sub_0_r.
  - destruct hi as [|h]; [lia|].
    destruct (lookup_lt_is_Some_2 (Items podList) h ltac:(lia)) as [p Hp].
    rewrite (victims_S _ _ _ p) in * by (done || lia).
    apply quiet_S in Hq as [Hq1 Hq].
    rewrite fmap_cons in Hnd. apply NoDup_cons in Hnd as [Hp_new Hnd].
    rewrite deleteLoop_eq, !decide_True by lia.
    replace (Z.to_nat (Z.of_nat (S h) - 1)) with h by lia. rewrite Hp.
    rewrite clientDelete_ok'; [| done | apply Hin; left].
    replace (Z.of_nat (S h) - 1 - 1) with (Z.of_nat h - 1) by lia.
    rewrite IH; [| lia | lia | done | | done].
    + rewrite shrunk_cons. by replace (S h - S k)%nat with (h - k)%nat by lia.
    + intros q Hqv. unfold shrunk. simpl.
      specialize (Hin q ltac:(by right)).
      apply list_elem_of_fmap in Hin as (y & Hy & Hyin).
      apply list_elem_of_fmap. exists y. split; [done|].
      apply list_elem_of_filter. split; [|done].
      rewrite <- Hy. rewrite not_elem_of_cons. split; [|apply not_elem_of_nil].
      intros Heq. apply Hp_new. rewrite <- Heq. by apply list_elem_of_fmap_2.
Qed.

(** The whole batch goes through. *)
Lemma deletePods_ok podList desiredSize w :
  0 ≤ desiredSize ≤ Z.of_nat (length (Items podList)) →
  quiet (length (Items podList) - Z.to_nat desiredSize) (faults w) →
  (∀ p, p ∈ Items podList → podKey p ∈ podKey <$> pods w) →
  NoDup (podKey <$> Items podList) →
  deletePods podList (Z.of_nat (length (Items podList))) desiredSize w =
  (Returned None,
   shrunk (reverse (drop (Z.to_nat desiredSize) (Items podList))) w).
Proof.
  intros Hd Hq Hin Hnd. unfold deletePods.
  set (len := length (Items podList)). set (d := Z.to_nat desiredSize).
  assert (Hsub : reverse (victims (Items podList) len (len - d)) `sublist_of` Items podList)
    by apply victims_sublist.
  rewrite (deleteLoop_steps _ _ (len - d)); [| lia | lia | done | |].
  - rewrite deleteLoop_eq, decide_False by lia.
    unfold len, d. by rewrite victims_all by lia.
  - intros p Hp. apply Hin. apply elem_of_reverse in Hp.
    by eapply sublist_submseteq, elem_of_submseteq in Hsub.
  - apply (NoDup_Permutation_proper _ _ (reverse_Permutation _)) .
    rewrite <- fmap_reverse. eapply sublist_NoDup; [exact Hnd|].
    by apply fmap_sublist.
Qed.

(** The batch fails at its deletion number [k] (counted from 0): the [k]
    before it went through, the rest are not attempted. *)
Lemma deletePods_fault podList desiredSize w k e p :
  0 ≤ desiredSize →
  Z.of_nat k < Z.of_nat (length (Items podList)) - desiredSize →
  quiet k (faults w) → faults w !! k = Some (Some e) →
  Items podList !! (length (Items podList) - 1 - k)%nat = Some p →
  (∀ p, p ∈ Items podList → podKey p ∈ podKey <$> pods w) →
  NoDup (podKey <$> Items podList) →
  deletePods podList (Z.of_nat (length (Items podList))) desiredSize w =
  (Returned (Some e),
   deleteAborted (Items podList) (length (Items podList)) k p e w).
Proof.
  intros Hd Hk Hq He Hp Hin Hnd. unfold deletePods.
  set (len := length (Items podList)) in *.
  assert (Hsub : reverse (victims (Items podList) len k) `sublist_of` Items podList)
    by apply victims_sublist.
  rewrite (deleteLoop_steps _ _ k); [| lia | lia | done | |].
  - rewrite deleteLoop_eq, !decide_True by lia.
    replace (Z.to_nat (Z.of_nat (len - k) - 1)) with (len - 1 - k)%nat by lia.
    rewrite Hp. rewrite (clientDelete_fault _ _ e); [done|].
    unfold shrunk. simpl. rewrite lookup_drop, length_fmap, length_victims by lia.
    by rewrite Nat.add_0_r.
  - intros q Hq'. apply Hin. apply elem_of_reverse in Hq'.
    by eapply sublist_submseteq, elem_of_submseteq in Hsub.
  - apply (NoDup_Permutation_proper _ _ (reverse_Permutation _)).
    rewrite <- fmap_reverse. eapply sublist_NoDup; [exact Hnd|].
    by apply fmap_sublist.
Qed.

(** The same for any desired size, also a negative one, as long as the
    failing deletion is of an element of the list. *)
Lemma deletePods_fault_at podList desiredSize w k e :
  Z.of_nat k < Z.of_nat (length (Items podList)) - desiredSize →
  (k < length (Items podList))%nat →
  quiet k (faults w) → faults w !! k = Some (Some e) →
  (∀ p, p ∈ Items podList → podKey p ∈ podKey <$> pods w) →
  NoDup (podKey <$> Items podList) →
  ∃ p, Items podList !! (length (Items podList) - 1 - k)%nat = Some p
       ∧ deletePods podList (Z.of_nat (length (Items podList))) desiredSize w =
         (Returned (Some e),
          deleteAborted (Items podList) (length (Items podList)) k p e w).
Proof.
  intros Hk Hkl Hq He Hin Hnd. unfold deletePods.
  set (len := length (Items podList)) in *.
  destruct (lookup_lt_is_Some_2 (Items podList) (len - 1 - k) ltac:(lia)) as [p Hp].
  exists p. split; [done|].
  assert (Hsub : reverse (victims (Items podList) len k) `sublist_of` Items podList)
    by apply victims_sublist.
  rewrite (deleteLoop_steps _ _ k); [| lia | lia | done | |].
  - rewrite deleteLoop_eq, !decide_True by lia.
    replace (Z.to_nat (Z.of_nat (len - k) - 1)) with (len - 1 - k)%nat by lia.
    rewrite Hp. rewrite (clientDelete_fault _ _ e); [done|].
    unfold shrunk. simpl. rewrite lookup_drop, length_fmap, length_victims by lia.
    by rewrite Nat.add_0_r.
  - intros q Hq'. apply Hin. apply elem_of_reverse in Hq'.
    by eapply sublist_submseteq, elem_of_submseteq in Hsub.
  - apply (NoDup_Permutation_proper _ _ (reverse_Permutation _)).
    rewrite <- fmap_reverse. eapply sublist_NoDup; [exact Hnd|].
    by apply fmap_sublist.
Qed.

(** ** One pass *)

Lemma podNames_foldl items acc :
  foldl (λ acc pod, acc ++ [Name (PodMeta pod)]) acc items = acc ++ podNames items.
Proof.
  revert acc. induction items as [|p items IH]; intros acc; simpl.
  - by rewrite app_nil_r.
  - rewrite IH. by rewrite <- app_assoc.
Qed.

Lemma creations_app cs1 cs2 : creations (cs1 ++ cs2) = creations cs1 ++ creations cs2.
Proof. apply omap_app. Qed.

Lemma deletions_app cs1 cs2 : deletions (cs1 ++ cs2) = deletions cs1 ++ deletions cs2.
Proof. apply omap_app. Qed.

Lemma creations_create ps : creations (CallCreate <$> ps) = ps.
Proof. induction ps as [|p ps IH]; [done|]. unfold creations in *. rewrite fmap_cons. simpl. first [exact IH | f_equal; exact IH]. Qed.

Lemma deletions_create ps : deletions (CallCreate <$> ps) = [].
Proof. induction ps as [|p ps IH]; [done|]. unfold deletions in *. rewrite fmap_cons. simpl. first [exact IH | f_equal; exact IH]. Qed.

Lemma creations_delete ps : creations (CallDelete <$> ps) = [].
Proof. induction ps as [|p ps IH]; [done|]. unfold creations in *. rewrite fmap_cons. simpl. first [exact IH | f_equal; exact IH]. Qed.

Lemma deletions_delete ps : deletions (CallDelete <$> ps) = ps.
Proof. induction ps as [|p ps IH]; [done|]. unfold deletions in *. rewrite fmap_cons. simpl. first [exact IH | f_equal; exact IH]. Qed.

Lemma newPod_listed req app i :
  listed (ReqNamespace req) {[ "app" := Name (Meta app) ]} (newPod req app i).
Proof.
  split; [done|]. apply map_Forall_singleton. simpl. apply lookup_singleton_eq.
Qed.

Lemma filter_all {A} (P : A → Prop) `{!∀ x, Decision (P x)} (l : list A) :
  Forall P l → filter P l = l.
Proof.
  induction 1 as [|x l Hx Hl IH]; [done|]. by rewrite filter_cons_True, IH.
Qed.

Lemma filter_none {A} (P : A → Prop) `{!∀ x, Decision (P x)} (l : list A) :
  Forall (λ x, ¬ P x) l → filter P l = [].
Proof.
  induction 1 as [|x l Hx Hl IH]; [done|]. by rewrite filter_cons_False, IH.
Qed.

Lemma observed_grown req app i k w :
  observed req app (grown req app i k w) = observed req app w ++ newPods req app i k.
Proof.
  unfold observed, grown. simpl. rewrite filter_app. f_equal.
  apply filter_all. apply Forall_fmap, Forall_forall. intros j _. apply newPod_listed.
Qed.

Lemma observed_shrunk req app ds w :
  observed req app (shrunk ds w) =
  filter (λ q, podKey q ∉ podKey <$> ds) (observed req app w).
Proof.
  unfold observed, shrunk. simpl. rewrite !list_filter_filter.
  apply list_filter_iff. intros q. tauto.
Qed.

(** Removing the keys of a suffix from a list of pairwise different keys
    leaves the prefix. *)
Lemma filter_without_suffix (l1 l2 : list Pod) :
  NoDup (podKey <$> (l1 ++ l2)) →
  filter (λ q, podKey q ∉ podKey <$> reverse l2) (l1 ++ l2) = l1.
Proof.
  rewrite fmap_app. intros (Hnd1 & Hdisj & Hnd2)%NoDup_app.
  rewrite filter_app. rewrite filter_all.
  - rewrite (filter_none _ l2); [by rewrite app_nil_r|].
    apply Forall_forall. intros q Hq Hn. apply Hn.
    rewrite fmap_reverse, elem_of_reverse. by apply list_elem_of_fmap_2.
  - apply Forall_forall. intros q Hq. rewrite fmap_reverse, elem_of_reverse.
    apply Hdisj. by apply list_elem_of_fmap_2.
Qed.

Lemma Reconcile_reads req app w :
  quiet 2 (faults w) →
  apps w !! (ReqNamespace req, ReqName req) = Some app →
  Reconcile req w =
  bind (scalePods req app {| Items := observed req app w |})
    (λ r, match r with
          | Some err => ret (emptyResult, Some err)
          | None =>
              r <- updateStatus app {| Items := observed req app w |} ;;
              match r with
              | Some err => ret (emptyResult, Some err)
              | None => ret (emptyResult, None)
              end
          end) (received (reads req app) w).
Proof.
  intros Hq Happ. apply quiet_S in Hq as [Hq1 Hq2].
  unfold Reconcile, getAppInstance, getPodList, call.
  unfold bind at 1. rewrite (clientGet_ok _ _ _ app) by done.
  unfold bind at 1. rewrite clientList_ok by done.
  by rewrite received_app.
Qed.

Lemma updateStatus_ok app podList w old :
  quiet 1 (faults w) →
  apps w !! (Namespace (Meta app), Name (Meta app)) = Some old →
  Meta old = Meta app → Spec old = Spec app →
  updateStatus app podList w = (Returned None, statusWritten app (Items podList) w).
Proof.
  intros Hq Hold Hm Hs. unfold updateStatus, bind, call.
  rewrite podNames_foldl. simpl.
  rewrite (clientStatusUpdate_ok _ _ old) by done. simpl.
  unfold statusWritten, setNodes. by rewrite Hm, Hs.
Qed.

Lemma updateStatus_fault app podList w e :
  faults w !! 0%nat = Some (Some e) →
  updateStatus app podList w =
  (Returned (Some e),
   logError e "Failed to update status"
     (received [CallStatusUpdate (setNodes app (podNames (Items podList)))] w)).
Proof.
  intros He. unfold updateStatus, bind, call. rewrite podNames_foldl. simpl.
  unfold clientStatusUpdate. by rewrite (enter_fault _ _ e).
Qed.

(** Whatever the store answers, [updateStatus] returns after exactly one
    call, the status write, and touches no pod. *)
Lemma updateStatus_cases app podList w :
  ∃ r w', updateStatus app podList w = (Returned r, w')
    ∧ calls w' = calls w ++ [CallStatusUpdate (setNodes app (podNames (Items podList)))]
    ∧ pods w' = pods w.
Proof.
  unfold updateStatus, bind, call. rewrite podNames_foldl. simpl.
  unfold clientStatusUpdate, enter.
  destruct (faults w) as [|[e|] fs]; simpl;
    try destruct (apps w !! _); simpl; eauto.
Qed.

Lemma storedAs_received req app cs w :
  storedAs req app w → storedAs req app (received cs w).
Proof. done. Qed.

Lemma observed_received req app cs w :
  observed req app (received cs w) = observed req app w.
Proof. done. Qed.

(** A pass on a cluster where the observed count equals the desired one:
    the two reads and the status write, nothing else. *)
Lemma Reconcile_converged req app w :
  storedAs req app w → quiet 3 (faults w) →
  Z.of_nat (length (observed req app w)) = Size (Spec app) →
  Reconcile req w =
  (Returned (emptyResult, None),
   statusWritten app (observed req app w) (received (reads req app) w)).
Proof.
  intros (Happ & Hns & Hname) Hq Hlen.
  rewrite (Reconcile_reads req app) by (done || by eapply (quiet_le 2 3); [lia|]).
  unfold bind at 1. unfold scalePods. simpl.
  rewrite !decide_False by lia. unfold ret at 1.
  unfold bind. rewrite (updateStatus_ok _ _ _ app); [done | | | done | done].
  - simpl. by apply (quiet_add 2 1) in Hq as [_ ?].
  - simpl. by rewrite Hns, Hname.
Qed.

(** A growing pass whose calls all go through. *)
Lemma Reconcile_grow req app w :
  let M := length (observed req app w) in
  let n := Z.to_nat (Size (Spec app) - Z.of_nat M) in
  storedAs req app w → quiet (3 + n) (faults w) →
  Z.of_nat M < Size (Spec app) →
  namesFree req app (Z.of_nat M) n w →
  Reconcile req w =
  (Returned (emptyResult, None),
   statusWritten app (observed req app w)
     (grown req app (Z.of_nat M) n (received (reads req app) w))).
Proof.
  intros M n (Happ & Hns & Hname) Hq Hlt Hfree.
  rewrite (Reconcile_reads req app) by (done || by eapply (quiet_le 2 (3 + n)); [lia|]).
  apply (quiet_add 2 (1 + n)) in Hq as [_ Hq].
  rewrite Nat.add_comm in Hq. apply quiet_add in Hq as [Hqn Hq1].
  unfold bind at 1. unfold scalePods. simpl.
  rewrite decide_True by done.
  fold M. rewrite createPods_ok; [| lia | done | done]. fold n.
  unfold bind. rewrite (updateStatus_ok _ _ _ app); [done | | | done | done].
  - simpl. rewrite length_fmap, length_newPods. by rewrite drop_drop in Hq1 |- *.
  - simpl. by rewrite Hns, Hname.
Qed.

Lemma observed_in_store req app w p :
  p ∈ observed req app w → podKey p ∈ podKey <$> pods w.
Proof.
  unfold observed. intros [_ Hp]%list_elem_of_filter. by apply list_elem_of_fmap_2.
Qed.

Lemma observed_NoDup req app w :
  uniqueKeys w → NoDup (podKey <$> observed req app w).
Proof.
  intros Hnd. eapply sublist_NoDup; [exact Hnd|].
  apply fmap_sublist, sublist_filter.
Qed.

(** A shrinking pass whose calls all go through. *)
Lemma Reconcile_shrink req app w :
  let items := observed req app w in
  let d := Z.to_nat (Size (Spec app)) in
  storedAs req app w → uniqueKeys w →
  quiet (3 + (length items - d)) (faults w) →
  0 ≤ Size (Spec app) < Z.of_nat (length items) →
  Reconcile req w =
  (Returned (emptyResult, None),
   statusWritten app items
     (shrunk (reverse (drop d items)) (received (reads req app) w))).
Proof.
  intros items d (Happ & Hns & Hname) Huniq Hq Hlt.
  rewrite (Reconcile_reads req app)
    by (done || by eapply (quiet_le 2 (3 + (length items - d))); [lia|]).
  apply (quiet_add 2 (1 + (length items - d))) in Hq as [_ Hq].
  rewrite Nat.add_comm in Hq. apply quiet_add in Hq as [Hqn Hq1].
  unfold bind at 1. unfold scalePods. simpl.
  rewrite decide_False by (fold items; lia).
  rewrite decide_True by (fold items; lia).
  rewrite (deletePods_ok {| Items := observed req app w |});
    [| simpl; fold items; lia | done | | by apply observed_NoDup].
  - simpl. fold items d. unfold bind.
    rewrite (updateStatus_ok _ _ _ app); [done | | | done | done].
    + simpl. rewrite length_fmap, length_reverse, length_drop.
      by rewrite drop_drop in Hq1 |- *.
    + simpl. by rewrite Hns, Hname.
  - simpl. intros p Hp. by apply (observed_in_store req app).
Qed.

(** * What the specification states *)

(** ** Reading the instance *)

Lemma clientGet_received ns name w r w1 :
  clientGet ns name w = (r, w1) → w1 = received [CallGet ns name] w.
Proof.
  unfold clientGet, enter. destruct (faults w) as [|[e|] fs]; simpl;
    try destruct (apps w !! _); congruence.
Qed.

Lemma clientList_received ns selector w r w1 :
  clientList ns selector w = (r, w1) → w1 = received [CallList ns selector] w.
Proof.
  unfold clientList, enter. destruct (faults w) as [|[e|] fs]; simpl; congruence.
Qed.

(** C8. When fetching the instance fails, the pass ends there: the Get is
    the only call made, and no pod, instance or log entry changes.  A
    not-found failure makes the pass return no error; any other failure is
    returned as the pass's error.  A failure of the pod listing is returned
    as the pass's error in the same way, after the two reads only. *)
Theorem C8_not_found_ends_pass req w :
  (∀ e w1,
     clientGet (ReqNamespace req) (ReqName req) w = (inr e, w1) →
     Reconcile req w =
       (Returned (emptyResult, if IsNotFound e then None else Some e),
        received [CallGet (ReqNamespace req) (ReqName req)] w))
  ∧ (∀ app e w1 w2,
       clientGet (ReqNamespace req) (ReqName req) w = (inl app, w1) →
       clientList (ReqNamespace req) {[ "app" := Name (Meta app) ]} w1 = (inr e, w2) →
       Reconcile req w = (Returned (emptyResult, Some e), received (reads req app) w)).
Proof.
  split.
  - intros e w1 Hget. pose proof (clientGet_received _ _ _ _ _ Hget) as ->.
    unfold Reconcile, bind, getAppInstance, call. rewrite Hget.
    by destruct (IsNotFound e).
  - intros app e w1 w2 Hget Hlist.
    pose proof (clientGet_received _ _ _ _ _ Hget) as ->.
    pose proof (clientList_received _ _ _ _ _ Hlist) as ->.
    unfold Reconcile, bind, getAppInstance, getPodList, call.
    rewrite Hget, Hlist. by rewrite received_app.
Qed.

(** The instance is absent: the pass returns no error after the Get alone.
    The store fails the Get otherwise: the pass returns that error. *)
Lemma C8_witness :
  Reconcile exampleReq emptyCluster =
    (Returned (emptyResult, None), received [CallGet "default" "app"] emptyCluster)
  ∧ Reconcile exampleReq (exampleCluster 3 0 [Some (ErrOther "timeout")]) =
    (Returned (emptyResult, Some (ErrOther "timeout")),
     received [CallGet "default" "app"] (exampleCluster 3 0 [Some (ErrOther "timeout")])).
Proof.
  split.
  - exact (proj1 (C8_not_found_ends_pass exampleReq emptyCluster)
             ErrNotFound (received [CallGet "default" "app"] emptyCluster) eq_refl).
  - exact (proj1 (C8_not_found_ends_pass exampleReq
                    (exampleCluster 3 0 [Some (ErrOther "timeout")]))
             (ErrOther "timeout")
             (received [CallGet "default" "app"]
                (exampleCluster 3 0 [Some (ErrOther "timeout")])) eq_refl).
Defined.

(** ** The diff decision *)

Lemma calls_grown req app i k w :
  calls (grown req app i k w) = calls w ++ (CallCreate <$> newPods req app i k).
Proof. done. Qed.

Lemma calls_createAborted req app i k e w :
  calls (createAborted req app i k e w) =
  calls w ++ (CallCreate <$> newPods req app i (S k)).
Proof.
  unfold createAborted. simpl. rewrite newPods_snoc, fmap_app. by rewrite <- app_assoc.
Qed.

Lemma calls_shrunk ds w : calls (shrunk ds w) = calls w ++ (CallDelete <$> ds).
Proof. done. Qed.

Lemma victims_snoc items hi k p :
  (k < hi ≤ length items)%nat → items !! (hi - 1 - k)%nat = Some p →
  victims items hi (S k) = victims items hi k ++ [p].
Proof.
  intros Hk Hp. unfold victims.
  rewrite <- reverse_cons. f_equal.
  replace (hi - k)%nat with (S (hi - S k)) by lia.
  apply drop_S. rewrite lookup_take_lt by lia.
  by replace (hi - S k)%nat with (hi - 1 - k)%nat by lia.
Qed.

Lemma calls_deleteAborted items hi k p e w :
  (k < hi ≤ length items)%nat → items !! (hi - 1 - k)%nat = Some p →
  calls (deleteAborted items hi k p e w) =
  calls w ++ (CallDelete <$> victims items hi (S k)).
Proof.
  intros Hk Hp. unfold deleteAborted. simpl.
  rewrite (victims_snoc _ _ _ p), fmap_app by done. by rewrite <- app_assoc.
Qed.

(** C4. [scalePods] decides on the two counts alone, one of three ways.
    With [currentSize < desiredSize] it only creates: it asks for the pods
    of indices [currentSize], [currentSize + 1], ... in turn, at most
    [desiredSize - currentSize] of them, and exactly that many, all added to
    the store, when it returns no error.  With [currentSize > desiredSize]
    it only deletes: it asks for the elements of the list from the last one
    down, at most [currentSize - desiredSize] of them, and exactly that many
    when it returns no error.  With equal counts it does nothing and
    returns no error. *)
Theorem C4_scale_decision req app podList w :
  let desiredSize := Size (Spec app) in
  let currentSize := Z.of_nat (length (Items podList)) in
  let r := fst (scalePods req app podList w) in
  let w' := snd (scalePods req app podList w) in
  (currentSize < desiredSize →
     deletions (calls w') = deletions (calls w)
     ∧ (∃ k : nat, Z.of_nat k ≤ desiredSize - currentSize
          ∧ creations (calls w') = creations (calls w) ++ newPods req app currentSize k)
     ∧ (r = Returned None →
          pods w' = pods w
                    ++ newPods req app currentSize (Z.to_nat (desiredSize - currentSize))
          ∧ creations (calls w') =
            creations (calls w)
            ++ newPods req app currentSize (Z.to_nat (desiredSize - currentSize))))
  ∧ (currentSize > desiredSize →
       creations (calls w') = creations (calls w)
       ∧ (∃ k : nat, Z.of_nat k ≤ currentSize - desiredSize
            ∧ deletions (calls w') =
              deletions (calls w) ++ victims (Items podList) (length (Items podList)) k)
       ∧ (r = Returned None →
            0 ≤ desiredSize
            ∧ deletions (calls w') =
              deletions (calls w)
              ++ victims (Items podList) (length (Items podList))
                   (Z.to_nat (currentSize - desiredSize))))
  ∧ (currentSize = desiredSize → scalePods req app podList w = (Returned None, w)).
Proof.
  intros desiredSize currentSize r w'. subst r w'. unfold scalePods.
  fold desiredSize currentSize. split; [|split].
  - intros Hlt. rewrite decide_True by done. unfold createPods.
    destruct (createLoop_cases req app desiredSize
                (Z.to_nat (desiredSize - currentSize)) currentSize w eq_refl)
      as [-> | (k & e & Hk & ->)]; simpl.
    + rewrite creations_app, deletions_app, creations_create, deletions_create.
      rewrite app_nil_r. split; [done|]. split; [|done].
      exists (Z.to_nat (desiredSize - currentSize)). split; [lia | done].
    + rewrite <- app_assoc, <- fmap_snoc, <- newPods_snoc.
      rewrite creations_app, deletions_app, creations_create, deletions_create.
      rewrite app_nil_r. split; [done|]. split; [|done].
      exists (S k). split; [lia | done].
  - intros Hgt. rewrite decide_False by lia. rewrite decide_True by done.
    unfold deletePods.
    change (deleteLoop podList desiredSize (currentSize - 1) w)
      with (deleteLoop podList desiredSize (Z.of_nat (length (Items podList)) - 1) w).
    destruct (deleteLoop_cases podList desiredSize (length (Items podList)) w
                ltac:(lia))
      as [[Hd ->] | [(k & e & p & Hk & Hkh & Hp & ->) | [Hd ->]]]; simpl.
    + rewrite creations_app, deletions_app, creations_delete, deletions_delete.
      rewrite app_nil_r. split; [done|].
      replace (Z.to_nat (currentSize - desiredSize))
        with (length (Items podList) - Z.to_nat desiredSize)%nat
        by (unfold currentSize; lia).
      split; [|done].
      exists (length (Items podList) - Z.to_nat desiredSize)%nat.
      split; [unfold currentSize; lia | done].
    + rewrite <- app_assoc, <- fmap_snoc, <- (victims_snoc _ _ _ p) by (done || lia).
      rewrite creations_app, deletions_app, creations_delete, deletions_delete.
      rewrite app_nil_r. split; [done|]. split; [|done].
      exists (S k). split; [unfold currentSize; lia | done].
    + rewrite creations_app, deletions_app, creations_delete, deletions_delete.
      rewrite app_nil_r. split; [done|]. split; [|done].
      exists (length (Items podList)). split; [unfold currentSize; lia | done].
  - intros Heq. by rewrite !decide_False by lia.
Qed.

(** The three decisions on the example instance: two pods short of 3, one
    pod over 1, and 2 of 2. *)
Lemma C4_witness :
  (pods (snd (scalePods exampleReq (exampleApp 3)
                {| Items := newPods exampleReq (exampleApp 3) 0 1 |}
                (exampleCluster 3 1 []))) =
     pods (exampleCluster 3 1 []) ++ newPods exampleReq (exampleApp 3) 1 2
   ∧ creations (calls (snd (scalePods exampleReq (exampleApp 3)
                {| Items := newPods exampleReq (exampleApp 3) 0 1 |}
                (exampleCluster 3 1 [])))) =
     [] ++ newPods exampleReq (exampleApp 3) 1 2)
  ∧ (0 ≤ 1
     ∧ deletions (calls (snd (scalePods exampleReq (exampleApp 1)
                {| Items := newPods exampleReq (exampleApp 1) 0 2 |}
                (exampleCluster 1 2 [])))) =
       [] ++ victims (newPods exampleReq (exampleApp 1) 0 2) 2 1)
  ∧ scalePods exampleReq (exampleApp 2)
      {| Items := newPods exampleReq (exampleApp 2) 0 2 |}
      (exampleCluster 2 2 []) = (Returned None, exampleCluster 2 2 []).
Proof.
  split; [|split].
  - refine (proj2 (proj2 (proj1 (C4_scale_decision exampleReq (exampleApp 3)
             {| Items := newPods exampleReq (exampleApp 3) 0 1 |}
             (exampleCluster 3 1 [])) _)) _); [by compute | by vm_compute].
  - refine (proj2 (proj2 (proj1 (proj2 (C4_scale_decision exampleReq (exampleApp 1)
             {| Items := newPods exampleReq (exampleApp 1) 0 2 |}
             (exampleCluster 1 2 []))) _)) _); [by compute | by vm_compute].
  - refine (proj2 (proj2 (C4_scale_decision exampleReq (exampleApp 2)
             {| Items := newPods exampleReq (exampleApp 2) 0 2 |}
             (exampleCluster 2 2 []))) _). by compute.
Defined.

(** ** Index safety of the shrink loop *)

(** C9. With [desiredSize] at least 0 and [currentSize] the length of the
    observed list, every index from [desiredSize] to [currentSize - 1] is
    an index of the list, and [deletePods] returns: it never panics on an
    index out of range.  The CRD schema of [spec.size] accepts every
    integer, so the bound on [desiredSize] is not enforced by it (nor by
    the field's type, a signed integer). *)
Theorem C9_shrink_in_bounds podList desiredSize w :
  0 ≤ desiredSize →
  let currentSize := Z.of_nat (length (Items podList)) in
  (∀ i, desiredSize ≤ i ≤ currentSize - 1 →
        0 ≤ i ∧ is_Some (Items podList !! Z.to_nat i))
  ∧ (∃ r w', deletePods podList currentSize desiredSize w = (Returned r, w'))
  ∧ (∀ z, validateInteger crdSizeSchema (Some z) = true).
Proof.
  intros Hd currentSize. split; [|split].
  - intros i Hi. split; [lia|]. apply lookup_lt_is_Some. lia.
  - unfold deletePods, currentSize.
    destruct (deleteLoop_cases podList desiredSize (length (Items podList)) w
                ltac:(lia))
      as [[_ ->] | [(k & e & p & _ & _ & _ & ->) | [Hneg _]]]; [eauto | eauto | lia].
  - done.
Qed.

Lemma C9_witness :
  (∀ i, 1 ≤ i ≤ Z.of_nat (length (newPods exampleReq (exampleApp 1) 0 3)) - 1 →
        0 ≤ i ∧ is_Some (newPods exampleReq (exampleApp 1) 0 3 !! Z.to_nat i))
  ∧ (∃ r w',
       deletePods {| Items := newPods exampleReq (exampleApp 1) 0 3 |}
         (Z.of_nat (length (newPods exampleReq (exampleApp 1) 0 3))) 1
         (exampleCluster 1 3 []) = (Returned r, w'))
  ∧ (∀ z, validateInteger crdSizeSchema (Some z) = true).
Proof.
  exact (C9_shrink_in_bounds {| Items := newPods exampleReq (exampleApp 1) 0 3 |} 1
           (exampleCluster 1 3 []) ltac:(lia)).
Defined.

(** Outside the precondition: a negative [desiredSize] makes the shrink
    loop run its index below 0, so [deletePods] cannot return without an
    error. *)
Lemma deletePods_negative podList desiredSize w :
  desiredSize < 0 →
  fst (deletePods podList (Z.of_nat (length (Items podList))) desiredSize w)
  ≠ Returned None.
Proof.
  intros Hneg. unfold deletePods.
  destruct (deleteLoop_cases podList desiredSize (length (Items podList)) w
              ltac:(lia))
    as [[Hd _] | [(k & e & p & _ & _ & _ & ->) | [_ ->]]]; [lia | done | done].
Qed.

(** A pass on an instance of size [-1] with one pod: the pod is deleted,
    then the pass panics. *)
Example Reconcile_negative_size :
  fst (Reconcile exampleReq (exampleCluster (-1) 1 [])) = Panicked
  ∧ pods (snd (Reconcile exampleReq (exampleCluster (-1) 1 []))) = []
  ∧ validateInteger crdSizeSchema (Some (-1)) = true.
Proof. by vm_compute. Qed.

(** The pods [createPods] builds have pairwise different keys. *)
Lemma newPods_NoDup req app i k : NoDup (podKey <$> newPods req app i k).
Proof.
  unfold newPods. rewrite <- list_fmap_compose.
  apply NoDup_fmap_2_strong; [|apply NoDup_seqZ].
  intros a b _ _ Hab. by apply (newPod_inj req app).
Qed.

Lemma exampleCluster_unique size have fs : uniqueKeys (exampleCluster size have fs).
Proof. apply newPods_NoDup. Qed.

(** ** Which units a shrinking pass deletes *)

(** What a pass does once [scalePods] returned no error: the status write
    is its one further call. *)
Lemma Reconcile_after_scale req app w wS :
  quiet 2 (faults w) →
  apps w !! (ReqNamespace req, ReqName req) = Some app →
  scalePods req app {| Items := observed req app w |} (received (reads req app) w)
    = (Returned None, wS) →
  ∃ r w', Reconcile req w = (Returned (emptyResult, r), w')
    ∧ calls w' =
      calls wS ++ [CallStatusUpdate (setNodes app (podNames (observed req app w)))]
    ∧ pods w' = pods wS.
Proof.
  intros Hq Happ Hscale. rewrite (Reconcile_reads req app) by done.
  unfold bind at 1. rewrite Hscale.
  destruct (updateStatus_cases app {| Items := observed req app w |} wS)
    as (r & w' & Hupd & Hcalls & Hpods).
  unfold bind. rewrite Hupd. destruct r as [e|]; unfold ret; eauto.
Qed.

(** C10. When the observed list is longer than the (non-negative) desired
    size and the store lets the calls through, the pods a pass asks to
    delete are the elements of the observed list from position
    [desiredSize] on, the last one first: the delete call number [j] is for
    the element of index [currentSize - 1 - j].  Those are the pods the
    pass removes from the store, and it creates none. *)
Theorem C10_deletes_tail req app w :
  let items := observed req app w in
  let d := Z.to_nat (Size (Spec app)) in
  let w' := snd (Reconcile req w) in
  storedAs req app w → uniqueKeys w →
  quiet (2 + (length items - d)) (faults w) →
  0 ≤ Size (Spec app) < Z.of_nat (length items) →
  deletions (calls w') = deletions (calls w) ++ reverse (drop d items)
  ∧ (∀ j : nat, (j < length items - d)%nat →
       reverse (drop d items) !! j = items !! (length items - 1 - j)%nat)
  ∧ creations (calls w') = creations (calls w)
  ∧ pods w' = filter (λ q, podKey q ∉ podKey <$> drop d items) (pods w).
Proof.
  intros items d w' (Happ & Hns & Hname) Huniq Hq Hlt. subst w'.
  apply quiet_add in Hq as [Hq2 Hqn].
  assert (Hscale :
    scalePods req app {| Items := items |} (received (reads req app) w) =
    (Returned None, shrunk (reverse (drop d items)) (received (reads req app) w))).
  { unfold scalePods. simpl. rewrite decide_False by lia. rewrite decide_True by lia.
    apply (deletePods_ok {| Items := items |}); simpl; [lia | done | |].
    - intros p Hp. by apply (observed_in_store req app).
    - by apply observed_NoDup. }
  destruct (Reconcile_after_scale req app w _ Hq2 Happ Hscale)
    as (r & w' & -> & Hcalls & Hpods). simpl.
  rewrite Hcalls, Hpods. simpl.
  rewrite !creations_app, !deletions_app, creations_delete, deletions_delete.
  simpl. rewrite !app_nil_r. split; [done|]. split; [|split; [done|]].
  - intros j Hj. rewrite reverse_lookup by (rewrite length_drop; lia).
    rewrite lookup_drop, length_drop. f_equal. lia.
  - apply list_filter_iff. intros q.
    by rewrite fmap_reverse, elem_of_reverse.
Qed.

Lemma C10_witness :
  deletions (calls (snd (Reconcile exampleReq (exampleCluster 1 3 [])))) =
    deletions (calls (exampleCluster 1 3 []))
    ++ reverse (drop 1 (observed exampleReq (exampleApp 1) (exampleCluster 1 3 [])))
  ∧ (∀ j : nat, (j < 3 - 1)%nat →
       reverse (drop 1 (observed exampleReq (exampleApp 1) (exampleCluster 1 3 []))) !! j
       = observed exampleReq (exampleApp 1) (exampleCluster 1 3 []) !! (3 - 1 - j)%nat)
  ∧ creations (calls (snd (Reconcile exampleReq (exampleCluster 1 3 [])))) =
    creations (calls (exampleCluster 1 3 []))
  ∧ pods (snd (Reconcile exampleReq (exampleCluster 1 3 []))) =
    filter (λ q, podKey q ∉ podKey <$>
                   drop 1 (observed exampleReq (exampleApp 1) (exampleCluster 1 3 [])))
           (pods (exampleCluster 1 3 [])).
Proof.
  refine (C10_deletes_tail exampleReq (exampleApp 1) (exampleCluster 1 3 []) _ _ _ _).
  - by split.
  - apply exampleCluster_unique.
  - apply quiet_nil.
  - by vm_compute.
Defined.

(** ** A batch that fails partway *)

(** C5. Take a pass whose two reads go through and whose batch meets its
    first failure at item number [k] (from 0): the [k] items before it go
    through and the store answers item [k] with the error [e].  For a
    creation that is a failure of the store's own ([e] is any error), or
    the refusal of a name that is taken ([e] is AlreadyExists); for a
    deletion, of an element of the list read from a store with unique keys,
    it is a failure of the store's own.  The pass returns [e] to its caller
    and logs it.  The [k] items before the failure were applied and stay
    applied: the store holds the [k] new pods, or lacks the [k] deleted
    ones.  No item after the failing one is attempted and the status is not
    written: the calls of the pass are the two reads and the first [k + 1]
    items of the batch. *)
Theorem C5_partial_failure req app w (k : nat) e :
  let items := observed req app w in
  let M := length items in
  let N := Size (Spec app) in
  let r := fst (Reconcile req w) in
  let w' := snd (Reconcile req w) in
  apps w !! (ReqNamespace req, ReqName req) = Some app →
  quiet (2 + k) (faults w) →
  (Z.of_nat M + Z.of_nat k < N →
   namesFree req app (Z.of_nat M) k w →
   faults w !! (2 + k)%nat = Some (Some e)
   ∨ (quiet (3 + k) (faults w) ∧ e = ErrAlreadyExists
      ∧ podKey (newPod req app (Z.of_nat M + Z.of_nat k)) ∈ podKey <$> pods w) →
   r = Returned (emptyResult, Some e)
   ∧ pods w' = pods w ++ newPods req app (Z.of_nat M) k
   ∧ apps w' = apps w
   ∧ calls w' =
     calls w ++ reads req app ++ (CallCreate <$> newPods req app (Z.of_nat M) (S k))
   ∧ logged w' = logged w ++ [(e, "Failed to create pod")])
  ∧ (Z.of_nat k < Z.of_nat M - N → (k < M)%nat →
     uniqueKeys w →
     faults w !! (2 + k)%nat = Some (Some e) →
     r = Returned (emptyResult, Some e)
     ∧ pods w' = filter (λ q, podKey q ∉ podKey <$> victims items M k) (pods w)
     ∧ apps w' = apps w
     ∧ calls w' =
       calls w ++ reads req app ++ (CallDelete <$> victims items M (S k))
     ∧ logged w' = logged w ++ [(e, "Failed to delete pod")]).
Proof.
  intros items M N r w' Happ Hq.
  assert (Hq2 : quiet 2 (faults w)) by (by eapply (quiet_le 2 (2 + k)); [lia|]).
  apply (quiet_add 2 k) in Hq as [_ Hqk].
  assert (Hpass := Reconcile_reads req app w Hq2 Happ).
  assert (Hek : faults w !! (2 + k)%nat = Some (Some e) →
                faults (received (reads req app) w) !! k = Some (Some e)).
  { intros He. simpl. by rewrite lookup_drop. }
  split.
  - intros Hlt Hfree Hfail. subst r w'. rewrite Hpass. unfold bind, scalePods. simpl.
    fold items M N. rewrite decide_True by lia.
    assert (Hbatch : createPods req app (Z.of_nat M) N (received (reads req app) w) =
      (Returned (Some e),
       logError e "Failed to create pod"
         (received [CallCreate (newPod req app (Z.of_nat M + Z.of_nat k))]
                   (grown req app (Z.of_nat M) k (received (reads req app) w))))).
    { destruct Hfail as [He | (Hq3 & -> & Htaken)].
      - apply createPods_fault; [lia | done | by apply Hek | done].
      - apply createPods_taken; [lia | | done | done].
        by apply (quiet_add 2 (S k)) in Hq3 as [_ ?]. }
    rewrite Hbatch.
    simpl. split; [done|]. split; [done|]. split; [done|].
    split; [|done].
    rewrite newPods_snoc, fmap_app. simpl. by rewrite <- !app_assoc.
  - intros Hlt HkM Huniq He. subst r w'. rewrite Hpass. unfold bind, scalePods. simpl.
    fold items M N. rewrite decide_False by lia. rewrite decide_True by lia.
    destruct (deletePods_fault_at {| Items := items |} N
                (received (reads req app) w) k e) as (p & Hp & Hdel);
      [simpl; fold M; lia | done | done | by apply Hek | | by apply observed_NoDup |].
    { simpl. intros q Hqin. by apply (observed_in_store req app). }
    simpl in Hp, Hdel. fold M in Hp, Hdel. rewrite Hdel.
    simpl. split; [done|]. split; [done|]. split; [done|].
    split; [|done].
    rewrite (victims_snoc _ _ _ p), fmap_app by (done || lia).
    simpl. by rewrite <- !app_assoc.
Qed.

(** A growth from 0 to 3 whose second creation the store fails: [app-pod-0]
    stays, [app-pod-2] is not asked for.  A growth from the pods of indices
    0 and 3 toward 5, whose second creation is refused because [app-pod-3]
    exists: [app-pod-2] stays.  A shrinking from 3 to 1 whose second
    deletion the store fails: [app-pod-2] stays deleted, [app-pod-0] and
    [app-pod-1] stay. *)
Lemma C5_witness :
  let e := ErrOther "quota" in
  let fs := [None; None; None; Some e] in
  let app3 := exampleApp 3 in
  let app5 := exampleApp 5 in
  let app1 := exampleApp 1 in
  let wG := exampleCluster 3 0 fs in
  let wT := sparseCluster in
  let wS := exampleCluster 1 3 fs in
  (fst (Reconcile exampleReq wG) = Returned (emptyResult, Some e)
   ∧ pods (snd (Reconcile exampleReq wG)) = [newPod exampleReq app3 0]
   ∧ calls (snd (Reconcile exampleReq wG)) =
     reads exampleReq app3
     ++ [CallCreate (newPod exampleReq app3 0); CallCreate (newPod exampleReq app3 1)]
   ∧ statusWrites (calls (snd (Reconcile exampleReq wG))) = [])
  ∧ (fst (Reconcile exampleReq wT) = Returned (emptyResult, Some ErrAlreadyExists)
     ∧ pods (snd (Reconcile exampleReq wT)) = pods wT ++ [newPod exampleReq app5 2]
     ∧ calls (snd (Reconcile exampleReq wT)) =
       reads exampleReq app5
       ++ [CallCreate (newPod exampleReq app5 2); CallCreate (newPod exampleReq app5 3)]
     ∧ statusWrites (calls (snd (Reconcile exampleReq wT))) = [])
  ∧ (fst (Reconcile exampleReq wS) = Returned (emptyResult, Some e)
     ∧ pods (snd (Reconcile exampleReq wS)) =
       [newPod exampleReq app1 0; newPod exampleReq app1 1]
     ∧ calls (snd (Reconcile exampleReq wS)) =
       reads exampleReq app1
       ++ [CallDelete (newPod exampleReq app1 2); CallDelete (newPod exampleReq app1 1)]
     ∧ statusWrites (calls (snd (Reconcile exampleReq wS))) = []).
Proof.
  intros e fs app3 app5 app1 wG wT wS.
  assert (HqG : quiet (2 + 1) (faults wG)) by (apply (quiet_replicate 3 3 [Some e]); lia).
  assert (HqS : quiet (2 + 1) (faults wS)) by (apply (quiet_replicate 3 3 [Some e]); lia).
  split; [|split].
  - destruct (proj1 (C5_partial_failure exampleReq app3 wG 1 e eq_refl HqG))
      as (Hr & Hp & _ & Hc & _).
    + by vm_compute.
    + intros j _. apply not_elem_of_nil.
    + by left.
    + split; [exact Hr|]. split; [by rewrite Hp|]. split; [by rewrite Hc|].
      by rewrite Hc.
  - destruct (proj1 (C5_partial_failure exampleReq app5 wT 1 ErrAlreadyExists
                       eq_refl (quiet_nil _)))
      as (Hr & Hp & _ & Hc & _).
    + by vm_compute.
    + intros j Hj.
      assert (HM : length (observed exampleReq app5 wT) = 2%nat) by (by vm_compute).
      rewrite HM in Hj. replace j with 2 by lia.
      apply (bool_decide_unpack _). by vm_compute.
    + right. split; [apply quiet_nil|]. split; [done|].
      apply (bool_decide_unpack _). by vm_compute.
    + split; [exact Hr|]. split; [by rewrite Hp|]. split; [by rewrite Hc|].
      by rewrite Hc.
  - destruct (proj2 (C5_partial_failure exampleReq app1 wS 1 e eq_refl HqS))
      as (Hr & Hp & _ & Hc & _).
    + by vm_compute.
    + vm_compute. lia.
    + apply exampleCluster_unique.
    + done.
    + split; [exact Hr|]. split; [by rewrite Hp; vm_compute|].
      split; [by rewrite Hc|]. by rewrite Hc.
Defined.

(** ** The status a pass leaves *)

Lemma storedAs_statusWritten req app items w :
  storedAs req app w →
  storedAs req (setNodes app (podNames items)) (statusWritten app items w).
Proof.
  intros (Happ & Hns & Hname). split; [|done].
  unfold statusWritten. simpl. rewrite Hns, Hname. apply lookup_insert_eq.
Qed.

(** The order in which a store keeps its pods decides the order of a
    listing and nothing else: stores holding the same pods list the same
    pods. *)
Lemma observed_Permutation req app w w' :
  pods w' ≡ₚ pods w → observed req app w' ≡ₚ observed req app w.
Proof. intros Hp. unfold observed. by rewrite Hp. Qed.

(** A pass on a store at the desired size writes the names of its pods as
    the status, whatever the order the store keeps them in. *)
Lemma Reconcile_converged_any_order req app w w' :
  storedAs req app w' → quiet 3 (faults w') → pods w' ≡ₚ pods w →
  Z.of_nat (length (observed req app w)) = Size (Spec app) →
  ∃ names, statusNodes req (snd (Reconcile req w')) = Some names
           ∧ names ≡ₚ podNames (observed req app w).
Proof.
  intros Hst Hq Hp Hlen.
  pose proof (observed_Permutation req app w w' Hp) as Hobs.
  rewrite (Reconcile_converged req app); [| done | done |].
  - simpl. exists (podNames (observed req app w')). split.
    + destruct (storedAs_statusWritten req app (observed req app w')
                  (received (reads req app) w')) as (Happ & _); [done|].
      unfold statusNodes. by rewrite Happ.
    + unfold podNames. by apply fmap_Permutation.
  - by rewrite (Permutation_length Hobs).
Qed.

Lemma statusNodes_statusWritten req app items w :
  storedAs req app w →
  statusNodes req (statusWritten app items w) = Some (podNames items).
Proof.
  intros Hst. apply (storedAs_statusWritten _ _ items) in Hst as [Happ _].
  unfold statusNodes. by rewrite Happ.
Qed.

(** The pass that follows a pass which ended with the status write, on a
    cluster where the observed count has reached the desired one: it reads,
    writes the names now observed into the status, and does nothing else. *)
Lemma Reconcile_again req app items0 wX :
  storedAs req app wX → quiet 4 (faults wX) →
  Z.of_nat (length (observed req app wX)) = Size (Spec app) →
  Reconcile req (statusWritten app items0 wX) =
  (Returned (emptyResult, None),
   statusWritten (setNodes app (podNames items0)) (observed req app wX)
     (received (reads req app) (statusWritten app items0 wX))).
Proof.
  intros Hst Hq Hlen.
  apply (Reconcile_converged req (setNodes app (podNames items0))).
  - by apply storedAs_statusWritten.
  - simpl. by apply (quiet_add 1 3) in Hq as [_ ?].
  - done.
Qed.

(** The effects of that following pass. *)
Lemma Reconcile_again_effects req app items0 wX :
  storedAs req app wX → quiet 4 (faults wX) →
  Z.of_nat (length (observed req app wX)) = Size (Spec app) →
  let w1 := statusWritten app items0 wX in
  let w2 := snd (Reconcile req w1) in
  fst (Reconcile req w1) = Returned (emptyResult, None)
  ∧ creations (calls w2) = creations (calls w1)
  ∧ deletions (calls w2) = deletions (calls w1)
  ∧ pods w2 = pods w1
  ∧ statusNodes req w2 = Some (podNames (observed req app wX)).
Proof.
  intros Hst Hq Hlen w1 w2. subst w2 w1. rewrite Reconcile_again by done.
  simpl. rewrite !creations_app, !deletions_app. simpl. rewrite !app_nil_r.
  repeat split.
  apply (statusNodes_statusWritten req (setNodes app (podNames items0))).
  by apply storedAs_received, storedAs_statusWritten.
Qed.

Lemma podNames_newPods req app i k :
  podNames (newPods req app i k) = podName app <$> seqZ i (Z.of_nat k).
Proof. unfold podNames, newPods. by rewrite <- list_fmap_compose. Qed.

Lemma podNames_NoDup req app i k : NoDup (podNames (newPods req app i k)).
Proof.
  rewrite podNames_newPods. apply NoDup_fmap_2_strong; [|apply NoDup_seqZ].
  intros a b _ _. apply podName_inj.
Qed.

(** A pass that has nothing to delete and whose calls all go through: it
    creates the missing pods, if any, and writes the status. *)
Lemma Reconcile_grow_or_hold req app w :
  let M := length (observed req app w) in
  let n := Z.to_nat (Size (Spec app) - Z.of_nat M) in
  storedAs req app w → quiet (3 + n) (faults w) →
  Z.of_nat M ≤ Size (Spec app) →
  namesFree req app (Z.of_nat M) n w →
  Reconcile req w =
  (Returned (emptyResult, None),
   statusWritten app (observed req app w)
     (grown req app (Z.of_nat M) n (received (reads req app) w))).
Proof.
  intros M n Hst Hq Hle Hfree.
  destruct (decide (Z.of_nat M < Size (Spec app))) as [Hlt|Hge].
  - by apply Reconcile_grow.
  - replace n with 0%nat in * by lia. rewrite grown_0.
    apply Reconcile_converged; [done | done | fold M; lia].
Qed.

Lemma storedAs_grown req app i k w :
  storedAs req app w → storedAs req app (grown req app i k w).
Proof. done. Qed.

(** C1, as the code has it.  Take an instance of desired size [N >= 0] with
    no observed pod, a store that lets the calls through and in which the
    [N] names are free.  One pass returns no error and creates exactly the
    [N] pods named [<name>-pod-0], ..., [<name>-pod-(N-1)], pairwise
    different, and deletes none.  The status it writes is the list read
    before the creations, the empty list; after the next pass, which
    creates and deletes nothing, the status holds exactly the [N] names, in
    the order the store lists the pods (stated up to permutation: the
    order of a listing is the store's). *)
Theorem C1_grow_from_empty req app w :
  let n := Z.to_nat (Size (Spec app)) in
  let w1 := snd (Reconcile req w) in
  let w2 := snd (Reconcile req w1) in
  storedAs req app w → observed req app w = [] → 0 ≤ Size (Spec app) →
  quiet (n + 6) (faults w) → namesFree req app 0 n w →
  fst (Reconcile req w) = Returned (emptyResult, None)
  ∧ creations (calls w1) = creations (calls w) ++ newPods req app 0 n
  ∧ deletions (calls w1) = deletions (calls w)
  ∧ pods w1 = pods w ++ newPods req app 0 n
  ∧ podNames (newPods req app 0 n) =
    (λ i, Name (Meta app) +:+ "-pod-" +:+ pretty i) <$> seqZ 0 (Size (Spec app))
  ∧ NoDup (podNames (newPods req app 0 n))
  ∧ length (newPods req app 0 n) = n
  ∧ statusNodes req w1 = Some []
  ∧ fst (Reconcile req w1) = Returned (emptyResult, None)
  ∧ creations (calls w2) = creations (calls w1)
  ∧ deletions (calls w2) = deletions (calls w1)
  ∧ pods w2 = pods w1
  ∧ (∃ names, statusNodes req w2 = Some names
       ∧ names ≡ₚ podNames (newPods req app 0 n)).
Proof.
  intros n w1 w2 Hst Hobs Hsize Hq Hfree.
  assert (Hpass : Reconcile req w =
    (Returned (emptyResult, None),
     statusWritten app [] (grown req app 0 n (received (reads req app) w)))).
  { pose proof (Reconcile_grow_or_hold req app w) as H. simpl in H.
    rewrite Hobs in H. simpl in H. rewrite Z.sub_0_r in H. apply H.
    - done.
    - eapply quiet_le; [|exact Hq]. lia.
    - done.
    - done. }
  set (wX := grown req app 0 n (received (reads req app) w)) in *.
  assert (HstX : storedAs req app wX) by done.
  assert (HqX : quiet 4 (faults wX)).
  { subst wX. simpl. rewrite length_fmap, length_newPods, drop_drop.
    replace (n + 6)%nat with ((2 + n) + 4)%nat in Hq by lia.
    by apply quiet_add in Hq as [_ ?]. }
  assert (HlenX : Z.of_nat (length (observed req app wX)) = Size (Spec app)).
  { subst wX. rewrite observed_grown, observed_received, Hobs. simpl.
    rewrite length_newPods. lia. }
  pose proof (Reconcile_again_effects req app [] wX HstX HqX HlenX) as Hagain.
  simpl in Hagain.
  subst w2 w1. rewrite Hpass. simpl.
  destruct Hagain as (H1 & H2 & H3 & H4 & H5).
  rewrite !creations_app, !deletions_app, creations_create, deletions_create.
  simpl. rewrite !app_nil_r.
  split; [done|]. split; [done|]. split; [done|]. split; [done|].
  split; [rewrite podNames_newPods; unfold n; by rewrite Z2Nat.id by done|].
  split; [apply podNames_NoDup|]. split; [apply length_newPods|].
  split; [by apply (statusNodes_statusWritten req app [])|].
  split; [done|].
  split; [by rewrite H2, !creations_app, creations_create; simpl; rewrite !app_nil_r|].
  split; [by rewrite H3, !deletions_app, deletions_create; simpl; rewrite !app_nil_r|].
  split; [done|].
  eexists. split; [exact H5|].
  subst wX. by rewrite observed_grown, observed_received, Hobs.
Qed.

Lemma namesFree_empty req app i k w : pods w = [] → namesFree req app i k w.
Proof. intros Hp j _. rewrite Hp. apply not_elem_of_nil. Qed.

(** Desired size 3 and no pod: [app-pod-0], [app-pod-1], [app-pod-2]. *)
Lemma C1_witness :
  let w := exampleCluster 3 0 [] in
  let w1 := snd (Reconcile exampleReq w) in
  let w2 := snd (Reconcile exampleReq w1) in
  fst (Reconcile exampleReq w) = Returned (emptyResult, None)
  ∧ creations (calls w1) = creations (calls w) ++ newPods exampleReq (exampleApp 3) 0 3
  ∧ deletions (calls w1) = deletions (calls w)
  ∧ pods w1 = pods w ++ newPods exampleReq (exampleApp 3) 0 3
  ∧ podNames (newPods exampleReq (exampleApp 3) 0 3) =
    (λ i, "app" +:+ "-pod-" +:+ pretty i) <$> seqZ 0 3
  ∧ NoDup (podNames (newPods exampleReq (exampleApp 3) 0 3))
  ∧ length (newPods exampleReq (exampleApp 3) 0 3) = 3%nat
  ∧ statusNodes exampleReq w1 = Some []
  ∧ fst (Reconcile exampleReq w1) = Returned (emptyResult, None)
  ∧ creations (calls w2) = creations (calls w1)
  ∧ deletions (calls w2) = deletions (calls w1)
  ∧ pods w2 = pods w1
  ∧ (∃ names, statusNodes exampleReq w2 = Some names
       ∧ names ≡ₚ podNames (newPods exampleReq (exampleApp 3) 0 3)).
Proof.
  refine (C1_grow_from_empty exampleReq (exampleApp 3) (exampleCluster 3 0 []) _ _ _ _ _).
  - by split.
  - done.
  - simpl. lia.
  - apply quiet_nil.
  - by apply namesFree_empty.
Defined.

(** The claim as stated fails on the scenario of the specification: after
    the one pass that creates [app-pod-0], [app-pod-1] and [app-pod-2] for
    desired size 3, the status holds no name, not 3. *)
Lemma C1_counterexample :
  observed exampleReq (exampleApp 3) (exampleCluster 3 0 []) = []
  ∧ fst (Reconcile exampleReq (exampleCluster 3 0 [])) = Returned (emptyResult, None)
  ∧ podNames (pods (snd (Reconcile exampleReq (exampleCluster 3 0 [])))) =
    ["app-pod-0"; "app-pod-1"; "app-pod-2"]
  ∧ statusNodes exampleReq (snd (Reconcile exampleReq (exampleCluster 3 0 []))) = Some []
  ∧ length <$> statusNodes exampleReq (snd (Reconcile exampleReq (exampleCluster 3 0 [])))
    ≠ Some 3%nat.
Proof. by vm_compute. Qed.

(** ** Shrinking, and the status it leaves *)

Lemma filter_without_tail (l : list Pod) (d : nat) :
  NoDup (podKey <$> l) →
  filter (λ q, podKey q ∉ podKey <$> reverse (drop d l)) l = take d l.
Proof.
  intros Hnd. pose proof (filter_without_suffix (take d l) (drop d l)) as H.
  rewrite take_drop in H. by apply H.
Qed.

(** Deleting objects that are in the store, under pairwise different keys,
    takes exactly that many objects out of it. *)
Lemma length_without (ps ds : list Pod) :
  NoDup (podKey <$> ps) → NoDup (podKey <$> ds) →
  (∀ p, p ∈ ds → podKey p ∈ podKey <$> ps) →
  (length (filter (λ q, podKey q ∉ podKey <$> ds) ps) + length ds = length ps)%nat.
Proof.
  intros Hps Hds Hin.
  pose proof (filter_app_complement (λ q, podKey q ∉ podKey <$> ds) ps) as Hperm.
  apply Permutation_length in Hperm. rewrite length_app in Hperm.
  rewrite <- Hperm. f_equal.
  rewrite <- (length_fmap podKey ds).
  rewrite <- (length_fmap podKey (filter _ ps)).
  symmetry. apply Permutation_length, NoDup_Permutation.
  - eapply sublist_NoDup; [exact Hps|]. apply fmap_sublist, sublist_filter.
  - done.
  - intros x. rewrite !list_elem_of_fmap. split.
    + intros (q & -> & Hq). apply list_elem_of_filter in Hq as [Hq _].
      destruct (decide (podKey q ∈ podKey <$> ds)) as [Hk|Hk]; [|done].
      by apply list_elem_of_fmap in Hk.
    + intros (p & -> & Hp). specialize (Hin p Hp).
      apply list_elem_of_fmap in Hin as (q & Hq & Hqin).
      exists q. split; [done|]. apply list_elem_of_filter. split; [|done].
      intros Hn. apply Hn. rewrite <- Hq. by apply list_elem_of_fmap_2.
Qed.

Lemma storedAs_shrunk req app ds w :
  storedAs req app w → storedAs req app (shrunk ds w).
Proof. done. Qed.

(** C2, as the code has it.  Take an instance of desired size [N >= 0]
    with [M > N] observed pods, in a store with unique keys that lets the
    calls through.  One pass returns no error, deletes exactly [M - N]
    pods, the last [M - N] of the observed list, and creates none; [N] pods
    of the instance are left.  The status it writes is the list read before
    the deletions, of length [M]; the status has length [N] after the next
    pass, which creates and deletes nothing. *)
Theorem C2_shrink req app w :
  let items := observed req app w in
  let M := length items in
  let d := Z.to_nat (Size (Spec app)) in
  let w1 := snd (Reconcile req w) in
  let w2 := snd (Reconcile req w1) in
  storedAs req app w → uniqueKeys w →
  0 ≤ Size (Spec app) < Z.of_nat M →
  quiet (M - d + 6) (faults w) →
  fst (Reconcile req w) = Returned (emptyResult, None)
  ∧ deletions (calls w1) = deletions (calls w) ++ reverse (drop d items)
  ∧ length (reverse (drop d items)) = (M - d)%nat
  ∧ creations (calls w1) = creations (calls w)
  ∧ (length (pods w1) + (M - d) = length (pods w))%nat
  ∧ observed req app w1 = take d items
  ∧ length (take d items) = d
  ∧ statusNodes req w1 = Some (podNames items)
  ∧ length (podNames items) = M
  ∧ fst (Reconcile req w1) = Returned (emptyResult, None)
  ∧ creations (calls w2) = creations (calls w1)
  ∧ deletions (calls w2) = deletions (calls w1)
  ∧ pods w2 = pods w1
  ∧ statusNodes req w2 = Some (podNames (take d items))
  ∧ length (podNames (take d items)) = d.
Proof.
  intros items M d w1 w2 Hst Huniq Hsize Hq.
  assert (Hpass : Reconcile req w =
    (Returned (emptyResult, None),
     statusWritten app items
       (shrunk (reverse (drop d items)) (received (reads req app) w)))).
  { apply Reconcile_shrink; [done | done | | done].
    eapply quiet_le; [|exact Hq]. fold items M d. lia. }
  set (wX := shrunk (reverse (drop d items)) (received (reads req app) w)) in *.
  assert (HndI : NoDup (podKey <$> items)) by by apply observed_NoDup.
  assert (HobsX : observed req app wX = take d items).
  { subst wX. rewrite observed_shrunk, observed_received.
    by apply filter_without_tail. }
  assert (HstX : storedAs req app wX) by done.
  assert (HqX : quiet 4 (faults wX)).
  { subst wX. simpl. rewrite length_fmap, length_reverse, length_drop, drop_drop.
    fold M. replace (M - d + 6)%nat with ((2 + (M - d)) + 4)%nat in Hq by lia.
    by apply quiet_add in Hq as [_ ?]. }
  assert (HlenX : Z.of_nat (length (observed req app wX)) = Size (Spec app)).
  { rewrite HobsX, length_take. fold M. lia. }
  pose proof (Reconcile_again_effects req app items wX HstX HqX HlenX) as Hagain.
  simpl in Hagain. destruct Hagain as (H1 & H2 & H3 & H4 & H5).
  subst w2 w1. rewrite Hpass. simpl.
  rewrite !creations_app, !deletions_app, creations_delete, deletions_delete.
  simpl. rewrite !app_nil_r.
  split; [done|]. split; [done|].
  split; [rewrite length_reverse, length_drop; by fold M|].
  split; [done|].
  split.
  { assert (Hl : length (reverse (drop d items)) = (M - d)%nat)
      by by rewrite length_reverse, length_drop.
    rewrite <- Hl. apply length_without; [done | |].
    - rewrite fmap_reverse.
      apply (NoDup_Permutation_proper _ _ (reverse_Permutation _)).
      eapply sublist_NoDup; [exact HndI|]. apply fmap_sublist, sublist_drop.
    - intros p Hp. apply (observed_in_store req app).
      rewrite elem_of_reverse in Hp. exact (subseteq_drop d items p Hp). }
  split; [exact HobsX|].
  split; [rewrite length_take; fold M; lia|].
  split; [by apply (statusNodes_statusWritten req app items)|].
  split; [unfold podNames; by rewrite length_fmap|].
  split; [done|].
  split; [by rewrite H2, !creations_app, creations_delete; simpl; rewrite !app_nil_r|].
  split; [by rewrite H3, !deletions_app, deletions_delete; simpl; rewrite !app_nil_r|].
  split; [done|].
  split; [by rewrite H5, HobsX|].
  unfold podNames. rewrite length_fmap, length_take. fold M. lia.
Qed.

(** Three pods and desired size 1: [app-pod-2] and [app-pod-1] go. *)
Lemma C2_witness :
  let w := exampleCluster 1 3 [] in
  let items := observed exampleReq (exampleApp 1) w in
  let w1 := snd (Reconcile exampleReq w) in
  let w2 := snd (Reconcile exampleReq w1) in
  fst (Reconcile exampleReq w) = Returned (emptyResult, None)
  ∧ deletions (calls w1) = deletions (calls w) ++ reverse (drop 1 items)
  ∧ length (reverse (drop 1 items)) = (length items - 1)%nat
  ∧ creations (calls w1) = creations (calls w)
  ∧ (length (pods w1) + (length items - 1) = length (pods w))%nat
  ∧ observed exampleReq (exampleApp 1) w1 = take 1 items
  ∧ length (take 1 items) = 1%nat
  ∧ statusNodes exampleReq w1 = Some (podNames items)
  ∧ length (podNames items) = length items
  ∧ fst (Reconcile exampleReq w1) = Returned (emptyResult, None)
  ∧ creations (calls w2) = creations (calls w1)
  ∧ deletions (calls w2) = deletions (calls w1)
  ∧ pods w2 = pods w1
  ∧ statusNodes exampleReq w2 = Some (podNames (take 1 items))
  ∧ length (podNames (take 1 items)) = 1%nat.
Proof.
  refine (C2_shrink exampleReq (exampleApp 1) (exampleCluster 1 3 []) _ _ _ _).
  - by split.
  - apply exampleCluster_unique.
  - by vm_compute.
  - apply quiet_nil.
Defined.

(** The claim as stated fails on the scenario of the specification: after
    the one pass that deletes 2 of 3 pods for desired size 1, the status
    still holds the 3 names read before the deletions, not 1. *)
Lemma C2_counterexample :
  length (observed exampleReq (exampleApp 1) (exampleCluster 1 3 [])) = 3%nat
  ∧ fst (Reconcile exampleReq (exampleCluster 1 3 [])) = Returned (emptyResult, None)
  ∧ podNames (pods (snd (Reconcile exampleReq (exampleCluster 1 3 [])))) = ["app-pod-0"]
  ∧ statusNodes exampleReq (snd (Reconcile exampleReq (exampleCluster 1 3 []))) =
    Some ["app-pod-0"; "app-pod-1"; "app-pod-2"]
  ∧ length <$> statusNodes exampleReq (snd (Reconcile exampleReq (exampleCluster 1 3 [])))
    ≠ Some 1%nat.
Proof. by vm_compute. Qed.

(** ** When the status is written, and from what *)

(** C3, as the code has it.  Take a pass whose reads went through.  If
    [scalePods] returns an error or panics, the pass ends there with that
    outcome: no status write is attempted.  If [scalePods] returns no
    error, the pass makes one more call, the status write, and the list it
    writes is made of the names of the pods listed before the creations or
    deletions; the pods are not listed again. *)
Theorem C3_status_after_scale req app w :
  let items := observed req app w in
  let scaled := scalePods req app {| Items := items |} (received (reads req app) w) in
  quiet 2 (faults w) →
  apps w !! (ReqNamespace req, ReqName req) = Some app →
  match fst scaled with
  | Returned None =>
      ∃ r w', Reconcile req w = (Returned (emptyResult, r), w')
        ∧ calls w' =
          calls (snd scaled) ++ [CallStatusUpdate (setNodes app (podNames items))]
        ∧ pods w' = pods (snd scaled)
  | Returned (Some e) => Reconcile req w = (Returned (emptyResult, Some e), snd scaled)
  | Panicked => Reconcile req w = (Panicked, snd scaled)
  end.
Proof.
  intros items scaled Hq Happ. subst scaled.
  destruct (scalePods req app {| Items := items |} (received (reads req app) w))
    as [[[e|]|] wS] eqn:Hscale; simpl.
  - rewrite (Reconcile_reads req app) by done. unfold bind. fold items.
    by rewrite Hscale.
  - by apply Reconcile_after_scale.
  - rewrite (Reconcile_reads req app) by done. unfold bind. fold items.
    by rewrite Hscale.
Qed.

(** A growth from 0 to 3 whose second creation is failed by the store: the
    pass ends with the error of [scalePods]. *)
Lemma C3_witness :
  let w := exampleCluster 3 0 [None; None; None; Some (ErrOther "quota")] in
  let items := observed exampleReq (exampleApp 3) w in
  let scaled := scalePods exampleReq (exampleApp 3) {| Items := items |}
                  (received (reads exampleReq (exampleApp 3)) w) in
  match fst scaled with
  | Returned None =>
      ∃ r w', Reconcile exampleReq w = (Returned (emptyResult, r), w')
        ∧ calls w' =
          calls (snd scaled)
          ++ [CallStatusUpdate (setNodes (exampleApp 3) (podNames items))]
        ∧ pods w' = pods (snd scaled)
  | Returned (Some e) =>
      Reconcile exampleReq w = (Returned (emptyResult, Some e), snd scaled)
  | Panicked => Reconcile exampleReq w = (Panicked, snd scaled)
  end.
Proof.
  refine (C3_status_after_scale exampleReq (exampleApp 3)
            (exampleCluster 3 0 [None; None; None; Some (ErrOther "quota")]) _ _).
  - apply (quiet_replicate 2 3 [Some (ErrOther "quota")]). lia.
  - done.
Defined.

(** The claim as stated fails twice.  On a partial failure (the second of
    three creations is refused) the pass returns the error without any
    status write, and the status keeps no trace of the pod that was
    created.  On success (three pods created) the status written is the
    list read before the creations, not the pods that are live. *)
Lemma C3_counterexample :
  (fst (Reconcile exampleReq
          (exampleCluster 3 0 [None; None; None; Some (ErrOther "quota")]))
     = Returned (emptyResult, Some (ErrOther "quota"))
   ∧ statusWrites (calls (snd (Reconcile exampleReq
          (exampleCluster 3 0 [None; None; None; Some (ErrOther "quota")])))) = []
   ∧ podNames (pods (snd (Reconcile exampleReq
          (exampleCluster 3 0 [None; None; None; Some (ErrOther "quota")]))))
     = ["app-pod-0"]
   ∧ statusNodes exampleReq (snd (Reconcile exampleReq
          (exampleCluster 3 0 [None; None; None; Some (ErrOther "quota")])))
     = Some [])
  ∧ (fst (Reconcile exampleReq (exampleCluster 3 0 [])) = Returned (emptyResult, None)
     ∧ podNames (observed exampleReq (exampleApp 3)
                   (snd (Reconcile exampleReq (exampleCluster 3 0 []))))
       = ["app-pod-0"; "app-pod-1"; "app-pod-2"]
     ∧ statusNodes exampleReq (snd (Reconcile exampleReq (exampleCluster 3 0 [])))
       = Some []).
Proof. by vm_compute. Qed.

(** ** Resuming a growth that failed partway *)

Lemma newPods_app req app i a b :
  newPods req app i (a + b) =
  newPods req app i a ++ newPods req app (i + Z.of_nat a) b.
Proof.
  unfold newPods. rewrite Nat2Z.inj_add, seqZ_app by lia. by rewrite fmap_app.
Qed.

Lemma observed_createAborted req app i k e w :
  observed req app (createAborted req app i k e w) =
  observed req app w ++ newPods req app i k.
Proof. exact (observed_grown req app i k w). Qed.

Lemma namesFree_after req app i k n w :
  (k ≤ n)%nat → namesFree req app i n w →
  namesFree req app (i + Z.of_nat k) (n - k) (grown req app i k w).
Proof.
  intros Hk Hfree j Hj. unfold grown. simpl.
  rewrite fmap_app, elem_of_app. intros [Hin | Hin].
  - revert Hin. apply Hfree. lia.
  - unfold newPods in Hin. rewrite <- list_fmap_compose in Hin.
    apply list_elem_of_fmap in Hin as (j' & Hkey & Hj').
    apply newPod_inj in Hkey. subst j'. apply elem_of_seqZ in Hj'. lia.
Qed.

Lemma uniqueKeys_grown req app i n w :
  uniqueKeys w → namesFree req app i n w →
  NoDup (podKey <$> pods w ++ newPods req app i n).
Proof.
  intros Huniq Hfree. rewrite fmap_app. apply NoDup_app.
  split; [done|]. split; [|apply newPods_NoDup].
  intros x Hx Hnew. unfold newPods in Hnew. rewrite <- list_fmap_compose in Hnew.
  apply list_elem_of_fmap in Hnew as (j & -> & Hj). apply elem_of_seqZ in Hj.
  revert Hx. apply Hfree. lia.
Qed.

(** C6. Take a growth from [M] observed pods toward desired size [N], in a
    store with unique keys where the names for the indices [M], ..., [N - 1]
    are free, and let the store fail the creation number [k < N - M] of the
    pass (the reads and the [k] creations before it go through).  The pass
    returns that error with the [k] pods created.  The next pass, with the
    store unchanged in between and letting the calls through, creates
    exactly the remaining [N - M - k] pods, those of indices [M + k], ...,
    [N - 1], and deletes none; the store then holds the pods it held at
    first and those of indices [M], ..., [N - 1], under pairwise different
    keys. *)
Theorem C6_resume_after_partial_growth req app w (k : nat) e :
  let M := length (observed req app w) in
  let n := Z.to_nat (Size (Spec app) - Z.of_nat M) in
  let w1 := snd (Reconcile req w) in
  let w2 := snd (Reconcile req w1) in
  storedAs req app w → uniqueKeys w → (k < n)%nat →
  quiet (2 + k) (faults w) → faults w !! (2 + k)%nat = Some (Some e) →
  quiet (3 + (n - k)) (drop (3 + k) (faults w)) →
  namesFree req app (Z.of_nat M) n w →
  fst (Reconcile req w) = Returned (emptyResult, Some e)
  ∧ pods w1 = pods w ++ newPods req app (Z.of_nat M) k
  ∧ fst (Reconcile req w1) = Returned (emptyResult, None)
  ∧ creations (calls w2) =
    creations (calls w1) ++ newPods req app (Z.of_nat M + Z.of_nat k) (n - k)
  ∧ length (newPods req app (Z.of_nat M + Z.of_nat k) (n - k)) = (n - k)%nat
  ∧ podNames (newPods req app (Z.of_nat M + Z.of_nat k) (n - k)) =
    podName app <$> seqZ (Z.of_nat M + Z.of_nat k) (Z.of_nat (n - k))
  ∧ deletions (calls w2) = deletions (calls w1)
  ∧ pods w2 = pods w ++ newPods req app (Z.of_nat M) n
  ∧ NoDup (podKey <$> pods w2).
Proof.
  intros M n w1 w2 Hst Huniq Hk Hq He Hrest Hfree.
  pose proof Hst as (Happ & Hns & Hname).
  apply quiet_add in Hq as [Hq2 Hqk].
  assert (Hfreek : namesFree req app (Z.of_nat M) k (received (reads req app) w)).
  { intros j Hj. apply Hfree. lia. }
  assert (Hpass1 : Reconcile req w =
    (Returned (emptyResult, Some e),
     createAborted req app (Z.of_nat M) k e (received (reads req app) w))).
  { rewrite (Reconcile_reads req app) by done.
    unfold bind, scalePods. simpl. fold M.
    rewrite decide_True by lia.
    rewrite (createPods_fault _ _ _ _ _ k e); [done | lia | done | | done].
    simpl. rewrite lookup_drop. exact He. }
  set (wA := createAborted req app (Z.of_nat M) k e (received (reads req app) w)) in *.
  assert (HobsA : observed req app wA = observed req app w ++ newPods req app (Z.of_nat M) k).
  { subst wA. by rewrite observed_createAborted, observed_received. }
  assert (HlenA : length (observed req app wA) = (M + k)%nat).
  { rewrite HobsA, length_app, length_newPods. done. }
  assert (Hpass2 : Reconcile req wA =
    (Returned (emptyResult, None),
     statusWritten app (observed req app wA)
       (grown req app (Z.of_nat M + Z.of_nat k) (n - k) (received (reads req app) wA)))).
  { pose proof (Reconcile_grow_or_hold req app wA) as H. simpl in H.
    rewrite HlenA in H.
    replace (Z.to_nat (Size (Spec app) - Z.of_nat (M + k))) with (n - k)%nat in H by lia.
    replace (Z.of_nat (M + k)) with (Z.of_nat M + Z.of_nat k) in H by lia.
    apply H; [done | | lia |].
    - subst wA. simpl. rewrite length_fmap, length_newPods, !drop_drop.
      match goal with
      | |- quiet _ (drop ?a _) => replace a with (3 + k)%nat by lia
      end.
      exact Hrest.
    - by apply (namesFree_after req app (Z.of_nat M) k n (received (reads req app) w));
        [lia|]. }
  subst w2 w1. rewrite Hpass1. simpl. rewrite Hpass2. simpl.
  rewrite !creations_app, !deletions_app, !creations_create, !deletions_create.
  simpl. rewrite !app_nil_r.
  split; [done|]. split; [done|]. split; [done|]. split; [done|].
  split; [apply length_newPods|]. split; [apply podNames_newPods|].
  split; [done|].
  assert (Hpods : (pods w ++ newPods req app (Z.of_nat M) k)
                  ++ newPods req app (Z.of_nat M + Z.of_nat k) (n - k)
                  = pods w ++ newPods req app (Z.of_nat M) n).
  { rewrite <- app_assoc, <- newPods_app. by replace (k + (n - k))%nat with n by lia. }
  rewrite Hpods. split; [done|]. by apply uniqueKeys_grown.
Qed.

Lemma exampleCluster_namesFree size have fs i k :
  Z.of_nat have ≤ i →
  namesFree exampleReq (exampleApp size) i k (exampleCluster size have fs).
Proof.
  intros Hle j Hj Hin. simpl in Hin. unfold newPods in Hin.
  rewrite <- list_fmap_compose in Hin.
  apply list_elem_of_fmap in Hin as (j' & Hkey & Hj').
  apply newPod_inj in Hkey. subst j'. apply elem_of_seqZ in Hj'. lia.
Qed.

(** From 1 pod toward 4, the second creation of the first pass refused. *)
Lemma C6_witness :
  let w := exampleCluster 4 1 [None; None; None; Some (ErrOther "quota")] in
  let w1 := snd (Reconcile exampleReq w) in
  let w2 := snd (Reconcile exampleReq w1) in
  fst (Reconcile exampleReq w) = Returned (emptyResult, Some (ErrOther "quota"))
  ∧ pods w1 = pods w ++ newPods exampleReq (exampleApp 4) (Z.of_nat 1) 1
  ∧ fst (Reconcile exampleReq w1) = Returned (emptyResult, None)
  ∧ creations (calls w2) =
    creations (calls w1) ++ newPods exampleReq (exampleApp 4) (Z.of_nat 1 + Z.of_nat 1) (3 - 1)
  ∧ length (newPods exampleReq (exampleApp 4) (Z.of_nat 1 + Z.of_nat 1) (3 - 1)) = (3 - 1)%nat
  ∧ podNames (newPods exampleReq (exampleApp 4) (Z.of_nat 1 + Z.of_nat 1) (3 - 1)) =
    podName (exampleApp 4) <$> seqZ (Z.of_nat 1 + Z.of_nat 1) (Z.of_nat (3 - 1))
  ∧ deletions (calls w2) = deletions (calls w1)
  ∧ pods w2 = pods w ++ newPods exampleReq (exampleApp 4) (Z.of_nat 1) 3
  ∧ NoDup (podKey <$> pods w2).
Proof.
  refine (C6_resume_after_partial_growth exampleReq (exampleApp 4)
            (exampleCluster 4 1 [None; None; None; Some (ErrOther "quota")])
            1 (ErrOther "quota") _ _ _ _ _ _ _).
  - by split.
  - apply exampleCluster_unique.
  - vm_compute. lia.
  - apply (quiet_replicate 3 3 [Some (ErrOther "quota")]). lia.
  - done.
  - apply quiet_nil.
  - apply exampleCluster_namesFree. by vm_compute.
Defined.

(** The claim as stated fails when a name the batch reaches is taken.  The
    example instance has desired size 5 and the pods of indices 0 and 3,
    under different keys, in a store that fails no call by itself.  The
    first pass observes 2 pods, creates [app-pod-2] and is refused
    [app-pod-3], which exists: it created [k = 1 < 5 - 2] pods and then
    failed.  The next pass, nothing else changed, observes 3 pods and asks
    for [app-pod-3] again: it creates none of the remaining 2 pods, and
    neither does the pass after it. *)
Lemma C6_counterexample :
  let w := sparseCluster in
  let w1 := snd (Reconcile exampleReq w) in
  let w2 := snd (Reconcile exampleReq w1) in
  uniqueKeys w
  ∧ podNames (observed exampleReq (exampleApp 5) w) = ["app-pod-0"; "app-pod-3"]
  ∧ fst (Reconcile exampleReq w) = Returned (emptyResult, Some ErrAlreadyExists)
  ∧ podNames (creations (calls w1)) = ["app-pod-2"; "app-pod-3"]
  ∧ podNames (pods w1) = ["app-pod-0"; "app-pod-3"; "app-pod-2"]
  ∧ fst (Reconcile exampleReq w1) = Returned (emptyResult, Some ErrAlreadyExists)
  ∧ podNames (creations (calls w2)) = podNames (creations (calls w1)) ++ ["app-pod-3"]
  ∧ pods w2 = pods w1
  ∧ pods (snd (Reconcile exampleReq w2)) = pods w1
  ∧ length (pods w2) ≠ 5%nat.
Proof.
  split; [apply (bool_decide_unpack _); by vm_compute|]. by vm_compute.
Qed.

(** ** A second pass right after a successful one *)

(** C7. Take a pass that returns no error on a store with unique keys that
    fails no call.  After it the observed count equals the desired size,
    and a second pass, with the store unchanged in between, returns no
    error, creates nothing and deletes nothing: the pods stay as they
    are. *)
Theorem C7_second_pass_idle req app w :
  let w1 := snd (Reconcile req w) in
  let w2 := snd (Reconcile req w1) in
  storedAs req app w → uniqueKeys w → faults w = [] →
  fst (Reconcile req w) = Returned (emptyResult, None) →
  Z.of_nat (length (observed req app w1)) = Size (Spec app)
  ∧ fst (Reconcile req w1) = Returned (emptyResult, None)
  ∧ creations (calls w2) = creations (calls w1)
  ∧ deletions (calls w2) = deletions (calls w1)
  ∧ pods w2 = pods w1.
Proof.
  intros w1 w2 Hst Huniq Hf Hok. subst w2 w1.
  pose proof Hst as (Happ & Hns & Hname).
  assert (Hq2 : quiet 2 (faults w)) by (rewrite Hf; apply quiet_nil).
  set (items := observed req app w) in *.
  set (w0 := received (reads req app) w) in *.
  (* The cluster the lifecycle actions of the first pass leave. *)
  assert (HX : ∃ wX,
    scalePods req app {| Items := items |} w0 = (Returned None, wX)
    ∧ storedAs req app wX ∧ faults wX = []
    ∧ Z.of_nat (length (observed req app wX)) = Size (Spec app)).
  { rewrite (Reconcile_reads req app) in Hok by done. fold items w0 in Hok.
    unfold bind at 1 in Hok. unfold scalePods in *. simpl in *.
    destruct (decide (Z.of_nat (length items) < Size (Spec app))) as [Hlt|Hge].
    - unfold createPods in *.
      destruct (createLoop_cases req app (Size (Spec app))
                  (Z.to_nat (Size (Spec app) - Z.of_nat (length items)))
                  (Z.of_nat (length items)) w0 eq_refl)
        as [Hgrow | (k & e & Hk & Hab)].
      + rewrite Hgrow. eexists. split; [done|]. split; [done|].
        split; [simpl; by rewrite Hf, !drop_nil|].
        rewrite observed_grown, length_app, length_newPods.
        subst w0. rewrite observed_received. fold items. lia.
      + rewrite Hab in Hok. done.
    - destruct (decide (Z.of_nat (length items) > Size (Spec app))) as [Hgt|Hle].
      + unfold deletePods in *.
        destruct (deleteLoop_cases {| Items := items |} (Size (Spec app))
                    (length items) w0 ltac:(done))
          as [[Hd Hshr] | [(k & e & p & Hk & Hkh & Hp & Hab) | [Hd Hpanic]]];
          simpl in *.
        * rewrite Hshr. eexists. split; [done|]. split; [done|].
          split; [simpl; by rewrite Hf, !drop_nil|].
          rewrite victims_all by lia.
          rewrite observed_shrunk. subst w0. rewrite observed_received.
          fold items. rewrite filter_without_tail by by apply observed_NoDup.
          rewrite length_take. lia.
        * rewrite Hab in Hok. done.
        * rewrite Hpanic in Hok. done.
      + exists w0. split; [done|]. split; [done|].
        split; [subst w0; simpl; by rewrite Hf|].
        subst w0. rewrite observed_received. fold items. lia. }
  destruct HX as (wX & Hscale & HstX & HfX & HlenX).
  assert (HqX : quiet 4 (faults wX)) by (rewrite HfX; apply quiet_nil).
  assert (Hpass : Reconcile req w =
    (Returned (emptyResult, None), statusWritten app items wX)).
  { rewrite (Reconcile_reads req app) by done. fold items w0.
    unfold bind at 1. rewrite Hscale. unfold bind.
    destruct HstX as (HappX & _ & _).
    rewrite (updateStatus_ok _ _ _ app); [done | | | done | done].
    - eapply quiet_le; [|exact HqX]. lia.
    - by rewrite Hns, Hname. }
  rewrite Hpass. simpl.
  pose proof (Reconcile_again_effects req app items wX HstX HqX HlenX) as Hagain.
  simpl in Hagain. destruct Hagain as (H1 & H2 & H3 & H4 & _).
  done.
Qed.

(** After the pass that grows the example instance from 0 to 3 pods. *)
Lemma C7_witness :
  let w := exampleCluster 3 0 [] in
  let w1 := snd (Reconcile exampleReq w) in
  let w2 := snd (Reconcile exampleReq w1) in
  Z.of_nat (length (observed exampleReq (exampleApp 3) w1)) = Size (Spec (exampleApp 3))
  ∧ fst (Reconcile exampleReq w1) = Returned (emptyResult, None)
  ∧ creations (calls w2) = creations (calls w1)
  ∧ deletions (calls w2) = deletions (calls w1)
  ∧ pods w2 = pods w1.
Proof.
  refine (C7_second_pass_idle exampleReq (exampleApp 3) (exampleCluster 3 0 []) _ _ _ _).
  - by split.
  - apply exampleCluster_unique.
  - done.
  - by vm_compute.
Defined.

(** * Further properties of the controller *)

(** ** The anatomy of a pass *)

Lemma clientCreate_cases_free p w :
  ((podKey p ∉ podKey <$> pods w)
   ∧ clientCreate p w = (None, setPods (pods w ++ [p]) (received [CallCreate p] w)))
  ∨ ∃ e, clientCreate p w = (Some e, received [CallCreate p] w).
Proof.
  unfold clientCreate, enter. destruct (faults w) as [|[e|] fs]; simpl;
    try case_decide; eauto.
Qed.

Lemma namesFree_S req app i n w :
  podKey (newPod req app i) ∉ podKey <$> pods w →
  namesFree req app (i + 1) n (grown req app i 1 w) →
  namesFree req app i (S n) w.
Proof.
  intros Hi Hrest j Hj. destruct (decide (j = i)) as [->|Hne]; [done|].
  intros Hin. apply (Hrest j); [lia|].
  unfold grown. simpl. rewrite fmap_app, elem_of_app. by left.
Qed.

(** As [createLoop_cases], with what the store's acceptance of a creation
    tells: the names of the pods created were free. *)
Lemma createLoop_cases_free req app desiredSize (n : nat) : ∀ i w,
  n = Z.to_nat (desiredSize - i) →
  (namesFree req app i n w
   ∧ createLoop req app desiredSize i w = (Returned None, grown req app i n w))
  ∨ ∃ (k : nat) e, i + Z.of_nat k < desiredSize
      ∧ namesFree req app i k w
      ∧ createLoop req app desiredSize i w =
        (Returned (Some e), createAborted req app i k e w).
Proof.
  induction n as [|n IH]; intros i w Hn; rewrite createLoop_eq.
  - rewrite decide_False by lia. left. rewrite grown_0. split; [|done].
    intros j Hj. lia.
  - rewrite decide_True by lia.
    destruct (clientCreate_cases_free (newPod req app i) w) as [[Hfree ->] | [e ->]].
    + change (setPods _ _) with (grown req app i 1 w).
      destruct (IH (i + 1) (grown req app i 1 w) ltac:(lia))
        as [[Hrest ->] | (k & e & Hk & Hrest & ->)].
      * left. rewrite grown_S. split; [by apply namesFree_S | done].
      * right. exists (S k), e. split; [lia|].
        split; [by apply namesFree_S|]. by rewrite createAborted_S.
    + right. exists 0%nat, e. split; [lia|]. split; [intros j Hj; lia|].
      unfold createAborted. rewrite grown_0.
      by replace (i + Z.of_nat 0) with i by lia.
Qed.

Lemma scalePods_outcome req app podList w :
  scaleOutcome req app (Items podList) w
    (fst (scalePods req app podList w)) (snd (scalePods req app podList w)).
Proof.
  unfold scaleOutcome, scalePods.
  destruct (decide (Z.of_nat (length (Items podList)) < Size (Spec app))) as [Hlt|Hge].
  - unfold createPods.
    destruct (createLoop_cases_free req app (Size (Spec app))
                (Z.to_nat (Size (Spec app) - Z.of_nat (length (Items podList))))
                (Z.of_nat (length (Items podList))) w eq_refl)
      as [[Hfree ->] | (k & e & Hk & Hfree & ->)]; simpl.
    + by left.
    + right; left. by exists k, e.
  - destruct (decide (Z.of_nat (length (Items podList)) > Size (Spec app))) as [Hgt|Hle].
    + unfold deletePods.
      destruct (deleteLoop_cases podList (Size (Spec app)) (length (Items podList)) w
                  ltac:(done))
        as [[Hd ->] | [(k & e & p & Hk & Hkh & Hp & ->) | [Hd ->]]]; simpl.
      * do 2 right; left. split; [lia | done].
      * do 3 right; left. by exists k, e, p.
      * do 4 right; left. done.
    + do 5 right. split; [lia | done].
Qed.

Lemma scaleOutcome_apps req app items w0 r wS :
  scaleOutcome req app items w0 r wS → apps wS = apps w0.
Proof.
  intros [(_ & _ & _ & ->) | [(k & e & _ & _ & _ & ->) | [(_ & _ & ->)
    | [(k & e & p & _ & _ & _ & _ & ->) | [(_ & _ & ->) | (_ & _ & ->)]]]]]; done.
Qed.

Lemma updateStatus_stored app podList w :
  apps w !! (Namespace (Meta app), Name (Meta app)) = Some app →
  updateStatus app podList w = (Returned None, statusWritten app (Items podList) w)
  ∨ ∃ e, updateStatus app podList w =
         (Returned (Some e), statusAborted app (Items podList) e w).
Proof.
  intros Happ. unfold updateStatus, bind, call. rewrite podNames_foldl. simpl.
  unfold clientStatusUpdate, enter.
  destruct (faults w) as [|[e|] fs]; simpl; rewrite ?Happ; simpl; eauto.
Qed.

Lemma clientList_items ns selector w l w1 :
  clientList ns selector w = (inl l, w1) →
  l = {| Items := filter (listed ns selector) (pods w) |}.
Proof.
  unfold clientList, enter. destruct (faults w) as [|[e|] fs]; simpl; congruence.
Qed.

Lemma Reconcile_get_failed req w e w1 :
  clientGet (ReqNamespace req) (ReqName req) w = (inr e, w1) →
  Reconcile req w =
  (Returned (emptyResult, if IsNotFound e then None else Some e),
   received [CallGet (ReqNamespace req) (ReqName req)] w).
Proof.
  intros Hget. pose proof (clientGet_received _ _ _ _ _ Hget) as ->.
  unfold Reconcile, bind, getAppInstance, call. rewrite Hget.
  by destruct (IsNotFound e).
Qed.

Lemma Reconcile_list_failed req w app e w1 w2 :
  clientGet (ReqNamespace req) (ReqName req) w = (inl app, w1) →
  clientList (ReqNamespace req) {[ "app" := Name (Meta app) ]} w1 = (inr e, w2) →
  Reconcile req w = (Returned (emptyResult, Some e), received (reads req app) w).
Proof.
  intros Hget Hlist.
  pose proof (clientGet_received _ _ _ _ _ Hget) as ->.
  pose proof (clientList_received _ _ _ _ _ Hlist) as ->.
  unfold Reconcile, bind, getAppInstance, getPodList, call.
  rewrite Hget, Hlist. by rewrite received_app.
Qed.

(** A pass on a cluster without the instance: the Get and nothing else. *)
Lemma Reconcile_absent req w :
  apps w !! (ReqNamespace req, ReqName req) = None →
  ∃ e, Reconcile req w =
       (Returned (emptyResult, if IsNotFound e then None else Some e),
        received [CallGet (ReqNamespace req) (ReqName req)] w).
Proof.
  intros Hnone.
  destruct (clientGet (ReqNamespace req) (ReqName req) w) as [[a|e] w1] eqn:Hget.
  - unfold clientGet, enter in Hget.
    destruct (faults w) as [|[e|] fs]; simpl in Hget; rewrite ?Hnone in Hget; done.
  - exists e. by apply (Reconcile_get_failed req w e w1).
Qed.

(** Every pass on a cluster that holds the instance ends in one of the six
    ways of [passOutcome]. *)
Lemma Reconcile_outcome req app w :
  storedAs req app w →
  passOutcome req app w (fst (Reconcile req w)) (snd (Reconcile req w)).
Proof.
  intros (Happ & Hns & Hname). unfold passOutcome.
  destruct (clientGet (ReqNamespace req) (ReqName req) w) as [[a|e] w1] eqn:Hget.
  2:{ left. exists e. rewrite (Reconcile_get_failed req w e w1) by done.
      split; [|done]. unfold clientGet, enter in Hget.
      destruct (faults w) as [|[e'|] fs]; simpl in Hget |- *;
        rewrite ?Happ in Hget; congruence. }
  assert (a = app) as ->.
  { unfold clientGet, enter in Hget.
    destruct (faults w) as [|[e|] fs]; simpl in Hget; rewrite ?Happ in Hget;
      congruence. }
  destruct (clientList (ReqNamespace req) {[ "app" := Name (Meta app) ]} w1)
    as [[l|e] w2] eqn:Hlist.
  2:{ right; left. exists e. by rewrite (Reconcile_list_failed req w app e w1 w2). }
  right; right.
  pose proof (clientGet_received _ _ _ _ _ Hget) as ->.
  pose proof (clientList_received _ _ _ _ _ Hlist) as ->.
  assert (l = {| Items := observed req app w |}) as ->
    by exact (clientList_items _ _ _ _ _ Hlist).
  rewrite received_app in Hlist. simpl in Hlist.
  set (w0 := received (reads req app) w) in *.
  set (items := observed req app w) in *.
  assert (Hrec : Reconcile req w =
    bind (scalePods req app {| Items := items |})
      (λ r, match r with
            | Some err => ret (emptyResult, Some err)
            | None =>
                r <- updateStatus app {| Items := items |} ;;
                match r with
                | Some err => ret (emptyResult, Some err)
                | None => ret (emptyResult, None)
                end
            end) w0).
  { unfold Reconcile, bind, getAppInstance, getPodList, call.
    rewrite Hget, Hlist. done. }
  pose proof (scalePods_outcome req app {| Items := items |} w0) as Hsc.
  simpl in Hsc.
  exists (fst (scalePods req app {| Items := items |} w0)),
         (snd (scalePods req app {| Items := items |} w0)).
  split; [done|].
  pose proof (scaleOutcome_apps _ _ _ _ _ _ Hsc) as Happs.
  rewrite Hrec. unfold bind.
  destruct (scalePods req app {| Items := items |} w0) as [[[e|]|] wS]; simpl in *.
  - right; left. by exists e.
  - destruct (updateStatus_stored app {| Items := items |} wS) as [Hup | [e Hup]].
    { rewrite Happs. subst w0. simpl. by rewrite Hns, Hname. }
    + do 2 right; left. by rewrite Hup.
    + do 3 right. exists e. by rewrite Hup.
  - by left.
Qed.

(** On a keyed cluster a pass either finds no instance, and ends at the
    Get, or finds the instance the request names. *)
Lemma Reconcile_keyed req w :
  keyed w →
  (∃ e, Reconcile req w =
        (Returned (emptyResult, if IsNotFound e then None else Some e),
         received [CallGet (ReqNamespace req) (ReqName req)] w))
  ∨ ∃ app, storedAs req app w
           ∧ passOutcome req app w (fst (Reconcile req w)) (snd (Reconcile req w)).
Proof.
  intros Hkeyed.
  destruct (apps w !! (ReqNamespace req, ReqName req)) as [app|] eqn:Happ.
  - right. exists app.
    assert (Hst : storedAs req app w).
    { pose proof (Hkeyed _ _ Happ) as [= Hns Hname]. by split. }
    split; [done|]. by apply Reconcile_outcome.
  - left. by apply Reconcile_absent.
Qed.

(** Case analysis on the outcome of a batch. *)
Ltac scale_cases H :=
  let k := fresh "k" in
  let e := fresh "e" in
  let p := fresh "p" in
  let Hfree := fresh "Hfree" in
  let Hk := fresh "Hk" in
  let Hkh := fresh "Hkh" in
  let Hp := fresh "Hp" in
  destruct H as [(? & ? & Hfree & ?) | [(k & e & Hk & ? & Hfree & ?) | [(? & ? & ?)
    | [(k & e & p & Hk & Hkh & Hp & ? & ?) | [(? & ? & ?) | (? & ? & ?)]]]]].

(** Case analysis on the outcome of a pass, then on that of its batch. *)
Ltac pass_cases H :=
  let e := fresh "e" in
  let rS := fresh "rS" in
  let wS := fresh "wS" in
  let Hr := fresh "Hr" in
  let Hw := fresh "Hw" in
  let HrS := fresh "HrS" in
  let Hsc := fresh "Hsc" in
  destruct H as [(e & ? & Hr & Hw) | [(e & Hr & Hw) | (rS & wS & Hsc &
    [(HrS & Hr & Hw) | [(e & HrS & Hr & Hw) | [(HrS & Hr & Hw) | (e & HrS & Hr & Hw)]]])]];
  [ | | scale_cases Hsc | scale_cases Hsc | scale_cases Hsc | scale_cases Hsc ];
  subst; try discriminate;
  repeat match goal with
         | Heq : Returned (Some _) = Returned (Some _) |- _ => injection Heq as Heq
         end;
  subst; rewrite ?Hr, ?Hw.

(** ** A pass returns unless the size is negative *)

(** X6. On a keyed cluster, a pass for an instance that is absent or whose
    desired size is at least 0 always returns: no answer of the store makes
    it panic. *)
Theorem pass_returns req w :
  keyed w →
  (∀ app, apps w !! (ReqNamespace req, ReqName req) = Some app → 0 ≤ Size (Spec app)) →
  ∃ res, fst (Reconcile req w) = Returned res.
Proof.
  intros Hkeyed Hsize.
  destruct (Reconcile_keyed req w Hkeyed) as [[e ->] | (app & Hst & Hout)]; [eauto|].
  pose proof (Hsize app (proj1 Hst)) as Hnonneg.
  pass_cases Hout; eauto; lia.
Qed.

Lemma exampleCluster_keyed size have fs : keyed (exampleCluster size have fs).
Proof.
  intros k a Hka. simpl in Hka. apply lookup_singleton_Some in Hka as [<- <-]. done.
Qed.

Lemma pass_returns_witness :
  ∃ res, fst (Reconcile exampleReq
                (exampleCluster 2 5 [None; None; Some (ErrOther "gone")])) = Returned res.
Proof.
  refine (pass_returns exampleReq
            (exampleCluster 2 5 [None; None; Some (ErrOther "gone")]) _ _).
  - apply exampleCluster_keyed.
  - intros app Happ. simpl in Happ. apply lookup_singleton_Some in Happ as [_ <-].
    simpl. lia.
Defined.

(** ** The calls of a pass *)

Lemma statusWrites_app cs1 cs2 :
  statusWrites (cs1 ++ cs2) = statusWrites cs1 ++ statusWrites cs2.
Proof. apply omap_app. Qed.

Lemma statusWrites_create ps : statusWrites (CallCreate <$> ps) = [].
Proof.
  induction ps as [|p ps IH]; [done|]. unfold statusWrites in *.
  rewrite fmap_cons. simpl. exact IH.
Qed.

Lemma statusWrites_delete ps : statusWrites (CallDelete <$> ps) = [].
Proof.
  induction ps as [|p ps IH]; [done|]. unfold statusWrites in *.
  rewrite fmap_cons. simpl. exact IH.
Qed.

Lemma creations_list ns sel cs : creations (CallList ns sel :: cs) = creations cs.
Proof. done. Qed.

Lemma deletions_list ns sel cs : deletions (CallList ns sel :: cs) = deletions cs.
Proof. done. Qed.

Lemma statusWrites_list ns sel cs :
  statusWrites (CallList ns sel :: cs) = statusWrites cs.
Proof. done. Qed.

(** Rewriting the creations, deletions and status writes of a list of
    calls down to the batch it holds. *)
Ltac count_calls :=
  rewrite ?creations_list, ?deletions_list, ?statusWrites_list,
    ?creations_app, ?deletions_app, ?statusWrites_app,
    ?creations_create, ?deletions_create, ?creations_delete, ?deletions_delete,
    ?statusWrites_create, ?statusWrites_delete.

(** X1. The calls of a pass on a keyed cluster, whatever the store answers:
    the Get first; in the calls after it, never both a creation and a
    deletion; and at most one status write, which is then the last call. *)
Theorem pass_calls req w :
  keyed w →
  ∃ cs, calls (snd (Reconcile req w)) =
        calls w ++ CallGet (ReqNamespace req) (ReqName req) :: cs
    ∧ (creations cs = [] ∨ deletions cs = [])
    ∧ (statusWrites cs = []
       ∨ ∃ pre a, cs = pre ++ [CallStatusUpdate a] ∧ statusWrites pre = []).
Proof.
  intros Hkeyed.
  destruct (Reconcile_keyed req w Hkeyed) as [[e ->] | (app & Hst & Hout)].
  { exists []. simpl. eauto. }
  pass_cases Hout; simpl; rewrite <- ?app_assoc; simpl;
    (eexists; split; [reflexivity|]); count_calls;
    (split; [first [by left | by right]|]);
    first [ by left
          | right; eexists (_ :: _), _; split; [reflexivity|]; count_calls; done
          | right; eexists [_], _; split; [reflexivity|]; count_calls; done ].
Qed.

Lemma pass_calls_witness :
  ∃ cs, calls (snd (Reconcile exampleReq (exampleCluster 3 1 []))) =
        calls (exampleCluster 3 1 []) ++ CallGet "default" "app" :: cs
    ∧ (creations cs = [] ∨ deletions cs = [])
    ∧ (statusWrites cs = []
       ∨ ∃ pre a, cs = pre ++ [CallStatusUpdate a] ∧ statusWrites pre = []).
Proof.
  exact (pass_calls exampleReq (exampleCluster 3 1 []) (exampleCluster_keyed 3 1 [])).
Defined.

(** ** What a pass logs *)

(** X2. On a keyed cluster, whatever the store answers, the log of a pass
    is determined by its result and its last call.  A pass that returns an
    error after a failed Create, Delete or status Update, its last call,
    logs exactly one entry: the error it returns with the message of that
    step.  Every other pass logs nothing: one that returns no error, one
    that panics, one whose Get or List failed. *)
Theorem pass_log req w :
  keyed w →
  let r := fst (Reconcile req w) in
  let w' := snd (Reconcile req w) in
  match r, last (calls w') with
  | Returned (_, Some e), Some (CallCreate _) =>
      logged w' = logged w ++ [(e, "Failed to create pod")]
  | Returned (_, Some e), Some (CallDelete _) =>
      logged w' = logged w ++ [(e, "Failed to delete pod")]
  | Returned (_, Some e), Some (CallStatusUpdate _) =>
      logged w' = logged w ++ [(e, "Failed to update status")]
  | _, _ => logged w' = logged w
  end.
Proof.
  intros Hkeyed r w'. subst r w'.
  destruct (Reconcile_keyed req w Hkeyed) as [[e ->] | (app & Hst & Hout)].
  { simpl. rewrite last_snoc. by destruct (IsNotFound e). }
  pass_cases Hout; simpl; unfold reads; rewrite ?last_snoc, ?last_app; simpl;
    first [done | by destruct (IsNotFound _)].
Qed.

(** One failing pass of each kind on the example instance: the second
    creation of a growth, the second deletion of a shrinking, the status
    write of a pass with nothing to scale, and the List. *)
Lemma pass_log_witness :
  let e := ErrOther "quota" in
  logged (snd (Reconcile exampleReq (exampleCluster 3 0 [None; None; None; Some e])))
  = [(e, "Failed to create pod")]
  ∧ logged (snd (Reconcile exampleReq (exampleCluster 1 3 [None; None; None; Some e])))
    = [(e, "Failed to delete pod")]
  ∧ logged (snd (Reconcile exampleReq (exampleCluster 3 3 [None; None; Some e])))
    = [(e, "Failed to update status")]
  ∧ logged (snd (Reconcile exampleReq (exampleCluster 3 3 [None; Some e]))) = [].
Proof.
  intros e. split; [|split; [|split]].
  - generalize (pass_log exampleReq (exampleCluster 3 0 [None; None; None; Some e])
                  (exampleCluster_keyed _ _ _)).
    vm_compute. exact id.
  - generalize (pass_log exampleReq (exampleCluster 1 3 [None; None; None; Some e])
                  (exampleCluster_keyed _ _ _)).
    vm_compute. exact id.
  - generalize (pass_log exampleReq (exampleCluster 3 3 [None; None; Some e])
                  (exampleCluster_keyed _ _ _)).
    vm_compute. exact id.
  - generalize (pass_log exampleReq (exampleCluster 3 3 [None; Some e])
                  (exampleCluster_keyed _ _ _)).
    vm_compute. exact id.
Defined.

(** ** What a pass leaves of the instances *)

(** X3. On a keyed cluster, whatever the store answers, a pass adds and removes
    no instance, leaves the metadata and the spec of every instance as they
    were, and leaves every instance other than the request's wholly as it
    was; the cluster is still keyed. *)
Theorem pass_instances req w :
  keyed w →
  let w' := snd (Reconcile req w) in
  keyed w'
  ∧ (∀ k, apps w' !! k = None ↔ apps w !! k = None)
  ∧ (∀ k a, apps w !! k = Some a →
       ∃ a', apps w' !! k = Some a' ∧ Meta a' = Meta a ∧ Spec a' = Spec a
             ∧ (k ≠ (ReqNamespace req, ReqName req) → a' = a)).
Proof.
  intros Hkeyed w'. subst w'.
  assert (Hsame : ∀ w1, apps w1 = apps w →
    keyed w1
    ∧ (∀ k, apps w1 !! k = None ↔ apps w !! k = None)
    ∧ (∀ k a, apps w !! k = Some a →
         ∃ a', apps w1 !! k = Some a' ∧ Meta a' = Meta a ∧ Spec a' = Spec a
               ∧ (k ≠ (ReqNamespace req, ReqName req) → a' = a))).
  { intros w1 Heq. unfold keyed. rewrite Heq. split; [done|]. split; [done|].
    intros k a Hka. by exists a. }
  destruct (Reconcile_keyed req w Hkeyed) as [[e ->] | (app & Hst & Hout)].
  { by apply Hsame. }
  destruct Hst as (Happ & Hns & Hname).
  assert (Hwritten : ∀ wS, apps wS = apps w →
    keyed (statusWritten app (observed req app w) wS)
    ∧ (∀ k, apps (statusWritten app (observed req app w) wS) !! k = None
            ↔ apps w !! k = None)
    ∧ (∀ k a, apps w !! k = Some a →
         ∃ a', apps (statusWritten app (observed req app w) wS) !! k = Some a'
               ∧ Meta a' = Meta a ∧ Spec a' = Spec a
               ∧ (k ≠ (ReqNamespace req, ReqName req) → a' = a))).
  { intros wS Heq. unfold keyed, statusWritten. simpl. rewrite Heq, Hns, Hname.
    split; [|split].
    - intros k a. rewrite lookup_insert. case_decide as Hk.
      + intros [= <-]. simpl. by rewrite Hns, Hname.
      + apply Hkeyed.
    - intros k. rewrite lookup_insert. case_decide as Hk; [|done].
      subst k. rewrite Happ. done.
    - intros k a Hka. rewrite lookup_insert. case_decide as Hk.
      + subst k. rewrite Happ in Hka. injection Hka as <-.
        eexists. split; [done|]. simpl. done.
      + exists a. done. }
  pass_cases Hout; first [ by apply Hsame | by apply Hwritten ].
Qed.

Lemma pass_instances_witness :
  let w' := snd (Reconcile exampleReq (exampleCluster 3 1 [])) in
  keyed w'
  ∧ (∀ k, apps w' !! k = None ↔ apps (exampleCluster 3 1 []) !! k = None)
  ∧ (∀ k a, apps (exampleCluster 3 1 []) !! k = Some a →
       ∃ a', apps w' !! k = Some a' ∧ Meta a' = Meta a ∧ Spec a' = Spec a
             ∧ (k ≠ (ReqNamespace exampleReq, ReqName exampleReq) → a' = a)).
Proof.
  exact (pass_instances exampleReq (exampleCluster 3 1 []) (exampleCluster_keyed 3 1 [])).
Defined.

(** ** What a pass leaves of the pods *)

(** The pods after a pass on a cluster that holds the instance: those before
    it, or those before it and the pods of the first [k] missing indices,
    whose names were free, or those before it less [k] elements from the end
    of the observed list. *)
Lemma pass_pods req app w :
  storedAs req app w →
  let items := observed req app w in
  let M := length items in
  let N := Size (Spec app) in
  let w' := snd (Reconcile req w) in
  pods w' = pods w
  ∨ (∃ k : nat, Z.of_nat M + Z.of_nat k ≤ N
       ∧ namesFree req app (Z.of_nat M) k w
       ∧ pods w' = pods w ++ newPods req app (Z.of_nat M) k)
  ∨ (∃ k : nat, (k ≤ M)%nat ∧ (0 ≤ N → Z.of_nat k ≤ Z.of_nat M - N)
       ∧ pods w' = filter (λ q, podKey q ∉ podKey <$> victims items M k) (pods w)).
Proof.
  intros Hst items M N w'. subst w' N M items.
  pose proof (Reconcile_outcome req app w Hst) as Hout.
  pass_cases Hout; simpl;
    first [ by left
          | right; left; eexists; split; [|split; [eassumption | reflexivity]]; lia
          | right; right; eexists; split; [|split; [|reflexivity]]; lia ].
Qed.

Lemma NoDup_fmap_elem_inj {A B} (f : A → B) (l : list A) x y :
  NoDup (f <$> l) → x ∈ l → y ∈ l → f x = f y → x = y.
Proof.
  induction l as [|a l IH]; intros Hnd Hx Hy Hxy; [by apply elem_of_nil in Hx|].
  rewrite fmap_cons in Hnd. apply NoDup_cons in Hnd as [Ha Hnd].
  apply elem_of_cons in Hx as [->|Hx]; apply elem_of_cons in Hy as [->|Hy].
  - done.
  - exfalso. apply Ha. rewrite Hxy. by apply list_elem_of_fmap_2.
  - exfalso. apply Ha. rewrite <- Hxy. by apply list_elem_of_fmap_2.
  - by apply IH.
Qed.

Lemma victims_observed req app w hi k p :
  p ∈ victims (observed req app w) hi k → p ∈ observed req app w.
Proof.
  intros Hp. pose proof (victims_sublist (observed req app w) hi k) as Hsub.
  apply sublist_submseteq in Hsub. eapply elem_of_submseteq; [|exact Hsub].
  by apply elem_of_reverse.
Qed.

(** X4. On a keyed cluster with unique pod keys, whatever the store answers, a
    pass keeps the pod keys unique, and every pod it removes was observed:
    a pod outside the request's namespace, or without the label
    [app=<name>] of the request, is still in the store after the pass. *)
Theorem pass_keeps_other_pods req w :
  keyed w → uniqueKeys w →
  let w' := snd (Reconcile req w) in
  uniqueKeys w'
  ∧ ∀ p, p ∈ pods w →
      ¬ listed (ReqNamespace req) {[ "app" := ReqName req ]} p →
      p ∈ pods w'.
Proof.
  intros Hkeyed Huniq w'. subst w'.
  destruct (Reconcile_keyed req w Hkeyed) as [[e ->] | (app & Hst & _)].
  { simpl. split; [done | by intros]. }
  pose proof Hst as (_ & _ & Hname).
  unfold uniqueKeys at 1.
  destruct (pass_pods req app w Hst)
    as [-> | [(k & _ & Hfree & ->) | (k & _ & _ & ->)]].
  - split; [done | by intros].
  - split; [by apply uniqueKeys_grown|]. intros p Hp _. apply elem_of_app. by left.
  - split.
    + eapply sublist_NoDup; [exact Huniq|].
      apply fmap_sublist, sublist_filter.
    + intros p Hp Hnot. apply list_elem_of_filter. split; [|done].
      intros Hin. apply list_elem_of_fmap in Hin as (v & Hkey & Hv).
      apply victims_observed in Hv.
      assert (Hvw : v ∈ pods w) by (unfold observed in Hv; by apply list_elem_of_filter in Hv as [_ ?]).
      assert (p = v) as -> by by apply (NoDup_fmap_elem_inj podKey (pods w)).
      apply Hnot. unfold observed in Hv. apply list_elem_of_filter in Hv as [Hl _].
      by rewrite <- Hname.
Qed.

Lemma pass_keeps_other_pods_witness :
  let w' := snd (Reconcile exampleReq (exampleCluster 1 3 [])) in
  uniqueKeys w'
  ∧ ∀ p, p ∈ pods (exampleCluster 1 3 []) →
      ¬ listed (ReqNamespace exampleReq) {[ "app" := ReqName exampleReq ]} p →
      p ∈ pods w'.
Proof.
  exact (pass_keeps_other_pods exampleReq (exampleCluster 1 3 [])
           (exampleCluster_keyed 1 3 []) (exampleCluster_unique 1 3 [])).
Defined.

(** ** A pass moves the observed count toward the desired size *)

Lemma length_observed_without req app w hi k w' :
  uniqueKeys w → (k ≤ hi ≤ length (observed req app w))%nat →
  pods w' = filter (λ q, podKey q ∉ podKey <$> victims (observed req app w) hi k) (pods w) →
  (length (observed req app w') + k = length (observed req app w))%nat.
Proof.
  intros Huniq Hk Hpods.
  assert (Hobs : observed req app w' =
    filter (λ q, podKey q ∉ podKey <$> victims (observed req app w) hi k)
           (observed req app w)).
  { generalize (victims (observed req app w) hi k) Hpods. intros ds Hds.
    unfold observed. rewrite Hds, !list_filter_filter. apply list_filter_iff.
    intros q. tauto. }
  rewrite Hobs.
  pose proof (length_without (observed req app w)
                (victims (observed req app w) hi k)) as Hlen.
  rewrite length_victims in Hlen by done. apply Hlen.
  - by apply observed_NoDup.
  - apply (NoDup_Permutation_proper _ _ (reverse_Permutation _)).
    rewrite <- fmap_reverse.
    apply (sublist_NoDup _ (podKey <$> observed req app w)); [by apply observed_NoDup|].
    apply fmap_sublist, victims_sublist.
  - intros p Hp. apply list_elem_of_fmap_2. by eapply victims_observed.
Qed.

(** X5. Whatever the store answers, a pass on a cluster with unique pod keys
    never overshoots and never moves away: if the observed count [M] is at
    most the desired size [N], the count after the pass is between [M] and
    [N]; if [M] is at least [N], and [N] at least 0, it is between [N] and
    [M]. *)
Theorem pass_approaches req app w :
  storedAs req app w → uniqueKeys w →
  let M := Z.of_nat (length (observed req app w)) in
  let N := Size (Spec app) in
  let M' := Z.of_nat (length (observed req app (snd (Reconcile req w)))) in
  (M ≤ N → M ≤ M' ≤ N) ∧ (0 ≤ N ≤ M → N ≤ M' ≤ M).
Proof.
  intros Hst Huniq M N M'. subst M' N M.
  destruct (pass_pods req app w Hst)
    as [Hp | [(k & Hk & Hfree & Hp) | (k & Hk & Hkn & Hp)]].
  - assert (Hobs : observed req app (snd (Reconcile req w)) = observed req app w)
      by (unfold observed; by rewrite Hp).
    rewrite Hobs. lia.
  - assert (Hobs : observed req app (snd (Reconcile req w)) =
      observed req app w
      ++ newPods req app (Z.of_nat (length (observed req app w))) k).
    { unfold observed at 1. rewrite Hp, filter_app. f_equal.
      apply filter_all, Forall_fmap, Forall_forall. intros j _. apply newPod_listed. }
    rewrite Hobs, length_app, length_newPods. lia.
  - pose proof (length_observed_without req app w (length (observed req app w)) k
                  _ Huniq ltac:(lia) Hp).
    lia.
Qed.

Lemma pass_approaches_witness :
  let w := exampleCluster 4 1 [None; None; None; Some (ErrOther "quota")] in
  let M := Z.of_nat (length (observed exampleReq (exampleApp 4) w)) in
  let N := Size (Spec (exampleApp 4)) in
  let M' := Z.of_nat (length (observed exampleReq (exampleApp 4)
                                (snd (Reconcile exampleReq w)))) in
  (M ≤ N → M ≤ M' ≤ N) ∧ (0 ≤ N ≤ M → N ≤ M' ≤ M).
Proof.
  refine (pass_approaches exampleReq (exampleApp 4)
            (exampleCluster 4 1 [None; None; None; Some (ErrOther "quota")]) _ _).
  - by split.
  - apply exampleCluster_unique.
Defined.

(** ** The pods a pass asks for *)

(** The pods a pass on a cluster that holds the instance asks the store to
    create: those of the first [k] missing indices, for some [k] within the
    deficit. *)
Lemma pass_creations req app w :
  storedAs req app w →
  let M := Z.of_nat (length (observed req app w)) in
  ∃ k : nat, (k = 0%nat ∨ M + Z.of_nat k ≤ Size (Spec app))
    ∧ creations (calls (snd (Reconcile req w))) =
      creations (calls w) ++ newPods req app M k.
Proof.
  intros Hst M. subst M.
  pose proof (Reconcile_outcome req app w Hst) as Hout.
  pass_cases Hout; simpl; rewrite ?calls_createAborted; simpl;
    rewrite ?creations_app; count_calls; simpl; rewrite ?app_nil_r;
    first [ by exists 0%nat; rewrite ?app_nil_r; split; [by left|]
          | eexists; split; [|reflexivity]; right; lia
          | eexists (S _); split; [right|];
            [|by rewrite newPods_snoc, app_assoc]; lia ].
Qed.

(** X8. Whatever the store answers, every pod a pass asks the store to create
    is a pod of the request's instance: its name is the instance name,
    ["-pod-"] and an index from the observed count up to the desired size
    less one; it is in the request's namespace; its only label is
    [app=<name>]; its only owner reference names the instance, by name and
    UID, as its controller; and its only container is [busybox] running
    [sleep 3600]. *)
Theorem pass_creates_owned_pods req w :
  keyed w →
  ∃ ps, creations (calls (snd (Reconcile req w))) = creations (calls w) ++ ps
    ∧ ∀ p, p ∈ ps →
        ∃ app i, apps w !! (ReqNamespace req, ReqName req) = Some app
          ∧ Z.of_nat (length (observed req app w)) ≤ i < Size (Spec app)
          ∧ Name (PodMeta p) = ReqName req +:+ "-pod-" +:+ pretty i
          ∧ Namespace (PodMeta p) = ReqNamespace req
          ∧ Labels (PodMeta p) = {[ "app" := ReqName req ]}
          ∧ OwnerReferences (PodMeta p) =
            [ {| APIVersion := "mygroup.mydomain.com/v1alpha1";
                 Kind := "AppInstance";
                 OwnerName := ReqName req;
                 OwnerUID := UID (Meta app);
                 Controller := true;
                 BlockOwnerDeletion := true |} ]
          ∧ Containers (PodSpecOf p) =
            [ {| ContainerName := "busybox"; Image := "busybox";
                 Command := ["sleep"; "3600"] |} ].
Proof.
  intros Hkeyed.
  destruct (Reconcile_keyed req w Hkeyed) as [[e ->] | (app & Hst & _)].
  { exists []. simpl. rewrite creations_app, app_nil_r. simpl.
    split; [by rewrite app_nil_r|]. intros p Hp. by apply elem_of_nil in Hp. }
  destruct (pass_creations req app w Hst) as (k & Hk & Hcre).
  eexists. split; [exact Hcre|].
  intros p Hp. unfold newPods in Hp.
  apply list_elem_of_fmap in Hp as (i & -> & Hi). apply elem_of_seqZ in Hi.
  destruct Hst as (Happ & Hns & Hname).
  exists app, i. split; [done|]. split; [destruct Hk; lia|].
  simpl. unfold podName, NewControllerRef, groupVersion. by rewrite Hname.
Qed.

Lemma pass_creates_owned_pods_witness :
  ∃ ps, creations (calls (snd (Reconcile exampleReq (exampleCluster 3 1 [])))) =
        creations (calls (exampleCluster 3 1 [])) ++ ps
    ∧ ∀ p, p ∈ ps →
        ∃ app i, apps (exampleCluster 3 1 []) !! ("default", "app") = Some app
          ∧ Z.of_nat (length (observed exampleReq app (exampleCluster 3 1 []))) ≤ i
            < Size (Spec app)
          ∧ Name (PodMeta p) = "app" +:+ "-pod-" +:+ pretty i
          ∧ Namespace (PodMeta p) = "default"
          ∧ Labels (PodMeta p) = {[ "app" := "app" ]}
          ∧ OwnerReferences (PodMeta p) =
            [ {| APIVersion := "mygroup.mydomain.com/v1alpha1";
                 Kind := "AppInstance";
                 OwnerName := "app";
                 OwnerUID := UID (Meta app);
                 Controller := true;
                 BlockOwnerDeletion := true |} ]
          ∧ Containers (PodSpecOf p) =
            [ {| ContainerName := "busybox"; Image := "busybox";
                 Command := ["sleep"; "3600"] |} ].
Proof.
  exact (pass_creates_owned_pods exampleReq (exampleCluster 3 1 [])
           (exampleCluster_keyed 3 1 [])).
Defined.

(** [getPodList], when the store lets it through. *)
Lemma getPodList_ok req app w :
  quiet 1 (faults w) →
  getPodList req app w =
  (Returned (inl {| Items := observed req app w |}),
   received [CallList (ReqNamespace req) {[ "app" := Name (Meta app) ]}] w).
Proof. intros Hq. unfold getPodList, call. by rewrite clientList_ok. Qed.

(** X9. What [createPods] creates, [getPodList] finds: after a batch of
    creations that went through, the listing for the instance holds the
    pods listed before the batch and the pods created, each once, and no
    other.  The order of the listing is the store's, so the listing is
    given up to permutation. *)
Theorem created_pods_are_listed req app currentSize desiredSize w :
  let n := Z.to_nat (desiredSize - currentSize) in
  let w1 := snd (createPods req app currentSize desiredSize w) in
  currentSize ≤ desiredSize →
  quiet (n + 1) (faults w) →
  namesFree req app currentSize n w →
  fst (createPods req app currentSize desiredSize w) = Returned None
  ∧ ∃ items,
      fst (getPodList req app w1) = Returned (inl {| Items := items |})
      ∧ items ≡ₚ observed req app w ++ newPods req app currentSize n.
Proof.
  intros n w1 Hle Hq Hfree. subst w1.
  apply quiet_add in Hq as [Hqn Hq1].
  rewrite createPods_ok by done. simpl. split; [done|].
  rewrite getPodList_ok.
  - simpl. eexists. split; [reflexivity|]. by rewrite observed_grown.
  - simpl. by rewrite length_fmap, length_newPods.
Qed.

(** With the pods of indices 0 to 8, a growth to 11 creates [app-pod-9] and
    [app-pod-10]. *)
Lemma created_pods_are_listed_witness :
  let w := exampleCluster 11 9 [] in
  let w1 := snd (createPods exampleReq (exampleApp 11) 9 11 w) in
  fst (createPods exampleReq (exampleApp 11) 9 11 w) = Returned None
  ∧ ∃ items,
      fst (getPodList exampleReq (exampleApp 11) w1) = Returned (inl {| Items := items |})
      ∧ items ≡ₚ observed exampleReq (exampleApp 11) w
                 ++ newPods exampleReq (exampleApp 11) 9 (Z.to_nat (11 - 9)).
Proof.
  refine (created_pods_are_listed exampleReq (exampleApp 11) 9 11
            (exampleCluster 11 9 []) _ _ _).
  - lia.
  - apply quiet_nil.
  - apply exampleCluster_namesFree. simpl. lia.
Defined.

(** ** A status write that fails *)

(** X10. When the creations or deletions of a pass went through and the store
    then fails the status write with [e], the pass returns [e] and logs it;
    the pods stay as the batch left them (nothing is rolled back) and no
    instance changes, so the status still is the one stored before the
    pass. *)
Theorem status_failure_keeps_changes req app w e wS :
  let w' := snd (Reconcile req w) in
  quiet 2 (faults w) → storedAs req app w →
  scalePods req app {| Items := observed req app w |} (received (reads req app) w)
    = (Returned None, wS) →
  faults wS !! 0%nat = Some (Some e) →
  fst (Reconcile req w) = Returned (emptyResult, Some e)
  ∧ pods w' = pods wS
  ∧ apps w' = apps w
  ∧ statusNodes req w' = statusNodes req w
  ∧ logged w' = logged wS ++ [(e, "Failed to update status")]
  ∧ calls w' =
    calls wS ++ [CallStatusUpdate (setNodes app (podNames (observed req app w)))].
Proof.
  intros w' Hq (Happ & Hns & Hname) Hscale He. subst w'.
  pose proof (scalePods_outcome req app {| Items := observed req app w |}
                (received (reads req app) w)) as Hsc.
  rewrite Hscale in Hsc. simpl in Hsc.
  apply scaleOutcome_apps in Hsc. simpl in Hsc.
  assert (Hpass : Reconcile req w =
    (Returned (emptyResult, Some e), statusAborted app (observed req app w) e wS)).
  { rewrite (Reconcile_reads req app) by done. unfold bind. rewrite Hscale.
    by rewrite (updateStatus_fault _ _ _ e) by done. }
  rewrite Hpass. simpl. unfold statusNodes. simpl. by rewrite Hsc.
Qed.

Lemma status_failure_keeps_changes_witness :
  let w := exampleCluster 2 0 [None; None; None; None; Some (ErrOther "conflict")] in
  let wS := snd (scalePods exampleReq (exampleApp 2)
                   {| Items := observed exampleReq (exampleApp 2) w |}
                   (received (reads exampleReq (exampleApp 2)) w)) in
  let w' := snd (Reconcile exampleReq w) in
  fst (Reconcile exampleReq w) = Returned (emptyResult, Some (ErrOther "conflict"))
  ∧ pods w' = pods wS
  ∧ apps w' = apps w
  ∧ statusNodes exampleReq w' = statusNodes exampleReq w
  ∧ logged w' = logged wS ++ [(ErrOther "conflict", "Failed to update status")]
  ∧ calls w' =
    calls wS ++ [CallStatusUpdate (setNodes (exampleApp 2)
                                     (podNames (observed exampleReq (exampleApp 2) w)))].
Proof.
  refine (status_failure_keeps_changes exampleReq (exampleApp 2)
            (exampleCluster 2 0 [None; None; None; None; Some (ErrOther "conflict")])
            (ErrOther "conflict") _ _ _ _ _).
  - apply (quiet_replicate 2 4 [Some (ErrOther "conflict")]). lia.
  - by split.
  - by vm_compute.
  - by vm_compute.
Defined.

(** ** Passes on a converged cluster *)

Lemma passes_S n req w :
  passes (S n) req w =
  (fst (Reconcile req w) :: fst (passes n req (snd (Reconcile req w))),
   snd (passes n req (snd (Reconcile req w)))).
Proof.
  simpl. destruct (Reconcile req w) as [r w1]. simpl.
  by destruct (passes n req w1).
Qed.

(** X11. Once the observed count equals the desired size, on a store that fails
    no call, any number of passes in a row return no error and leave the
    store as the first of them does: the pods untouched, and the instance
    with the names of the observed pods as its status. *)
Theorem converged_is_stable req app w (n : nat) :
  storedAs req app w → faults w = [] →
  Z.of_nat (length (observed req app w)) = Size (Spec app) →
  fst (passes (S n) req w) = replicate (S n) (Returned (emptyResult, None))
  ∧ pods (snd (passes (S n) req w)) = pods w
  ∧ apps (snd (passes (S n) req w)) =
    <[(ReqNamespace req, ReqName req) := setNodes app (podNames (observed req app w))]>
      (apps w).
Proof.
  revert app w. induction n as [|n IH]; intros app w Hst Hf Hlen.
  - rewrite passes_S. simpl.
    rewrite (Reconcile_converged req app) by (done || rewrite Hf; apply quiet_nil).
    simpl. destruct Hst as (_ & -> & ->). done.
  - rewrite passes_S.
    pose proof (Reconcile_converged req app w Hst
                  ltac:(rewrite Hf; apply quiet_nil) Hlen) as Hpass.
    rewrite Hpass. cbn [fst snd].
    set (w1 := statusWritten app (observed req app w) (received (reads req app) w)) in *.
    set (app1 := setNodes app (podNames (observed req app w))).
    assert (Hst1 : storedAs req app1 w1)
      by by apply storedAs_statusWritten, storedAs_received.
    assert (Hf1 : faults w1 = []) by (subst w1; simpl; by rewrite Hf).
    assert (Hobs1 : observed req app1 w1 = observed req app w) by done.
    destruct (IH app1 w1 Hst1 Hf1) as (Hrs & Hpods & Happs).
    { by rewrite Hobs1. }
    rewrite Hrs, Hpods, Happs, Hobs1. split; [done|]. split; [done|].
    subst w1. simpl. destruct Hst as (_ & -> & ->).
    by rewrite insert_insert_eq.
Qed.

Lemma converged_is_stable_witness :
  fst (passes 3 exampleReq (exampleCluster 2 2 [])) =
    replicate 3 (Returned (emptyResult, None))
  ∧ pods (snd (passes 3 exampleReq (exampleCluster 2 2 []))) = pods (exampleCluster 2 2 [])
  ∧ apps (snd (passes 3 exampleReq (exampleCluster 2 2 []))) =
    <[("default", "app") :=
        setNodes (exampleApp 2)
          (podNames (observed exampleReq (exampleApp 2) (exampleCluster 2 2 [])))]>
      (apps (exampleCluster 2 2 [])).
Proof.
  refine (converged_is_stable exampleReq (exampleApp 2) (exampleCluster 2 2 []) 2 _ _ _).
  - by split.
  - done.
  - by vm_compute.
Defined.

(** ** A growth whose next name is taken *)

Lemma Reconcile_taken req app w :
  storedAs req app w → quiet 3 (faults w) →
  Z.of_nat (length (observed req app w)) < Size (Spec app) →
  podKey (newPod req app (Z.of_nat (length (observed req app w)))) ∈ podKey <$> pods w →
  Reconcile req w =
  (Returned (emptyResult, Some ErrAlreadyExists),
   logError ErrAlreadyExists "Failed to create pod"
     (received [CallCreate (newPod req app (Z.of_nat (length (observed req app w))))]
        (received (reads req app) w))).
Proof.
  intros (Happ & Hns & Hname) Hq Hlt Hin.
  apply (quiet_add 2 1) in Hq as [Hq2 Hq1].
  rewrite (Reconcile_reads req app) by done.
  unfold bind, scalePods. simpl. rewrite decide_True by done.
  unfold createPods. rewrite createLoop_eq, decide_True by done.
  by rewrite clientCreate_taken.
Qed.

(** X12. The names of new pods come from the observed count alone.  When fewer
    pods than desired are observed and the name for the index equal to the
    observed count is already taken in the namespace (a pod of a lower
    index is gone, say), a pass on a store that fails no call returns the
    store's AlreadyExists and creates nothing; and so does every later
    pass, the store being as it was: the instance never reaches its
    desired size. *)
Theorem taken_name_blocks_growth req app w (n : nat) :
  storedAs req app w → faults w = [] →
  Z.of_nat (length (observed req app w)) < Size (Spec app) →
  podKey (newPod req app (Z.of_nat (length (observed req app w)))) ∈ podKey <$> pods w →
  fst (passes (S n) req w) =
    replicate (S n) (Returned (emptyResult, Some ErrAlreadyExists))
  ∧ pods (snd (passes (S n) req w)) = pods w
  ∧ apps (snd (passes (S n) req w)) = apps w.
Proof.
  revert w. induction n as [|n IH]; intros w Hst Hf Hlt Hin.
  - rewrite passes_S.
    rewrite (Reconcile_taken req app) by (done || rewrite Hf; apply quiet_nil).
    done.
  - rewrite passes_S.
    rewrite (Reconcile_taken req app) by (done || rewrite Hf; apply quiet_nil).
    cbn [fst snd].
    match goal with
    | |- context [passes (S n) req ?w1] =>
        destruct (IH w1) as (Hrs & Hpods & Happs);
          [done | by simpl; rewrite Hf | done | done |]
    end.
    rewrite Hrs, Hpods, Happs. done.
Qed.

(** Pods 0 and 2 of 3: two are observed, and the name for index 2 is
    taken. *)
Lemma taken_name_blocks_growth_witness :
  fst (passes 3 exampleReq gapCluster) =
    replicate 3 (Returned (emptyResult, Some ErrAlreadyExists))
  ∧ pods (snd (passes 3 exampleReq gapCluster)) = pods gapCluster
  ∧ apps (snd (passes 3 exampleReq gapCluster)) = apps gapCluster.
Proof.
  refine (taken_name_blocks_growth exampleReq (exampleApp 3) gapCluster 2 _ _ _ _).
  - by split.
  - done.
  - by vm_compute.
  - apply (bool_decide_unpack _). by vm_compute.
Defined.

(** ** A negative desired size *)

(** X13. With a negative desired size, on a store with unique pod keys that lets
    the calls through, a pass deletes every observed pod, the last of the
    list first, and then panics: no pod of the instance is left, and the
    status is not written. *)
Theorem negative_size_deletes_all req app w :
  let items := observed req app w in
  let w' := snd (Reconcile req w) in
  storedAs req app w → uniqueKeys w → Size (Spec app) < 0 →
  quiet (2 + length items) (faults w) →
  fst (Reconcile req w) = Panicked
  ∧ deletions (calls w') = deletions (calls w) ++ reverse items
  ∧ observed req app w' = []
  ∧ apps w' = apps w
  ∧ statusWrites (calls w') = statusWrites (calls w).
Proof.
  intros items w' (Happ & Hns & Hname) Huniq Hneg Hq. subst w'.
  apply quiet_add in Hq as [Hq2 Hqn].
  assert (HndI : NoDup (podKey <$> items)) by by apply observed_NoDup.
  assert (Hpass : Reconcile req w =
    (Panicked, shrunk (reverse items) (received (reads req app) w))).
  { rewrite (Reconcile_reads req app) by done.
    unfold bind, scalePods. simpl. fold items.
    rewrite decide_False by lia. rewrite decide_True by lia.
    unfold deletePods.
    rewrite (deleteLoop_steps {| Items := items |} _ (length items) (length items));
      simpl; [| lia | lia | done | |].
    - rewrite deleteLoop_eq. rewrite decide_True by lia. rewrite decide_False by lia.
      pose proof (victims_all items 0 ltac:(lia)) as Hv.
      rewrite Nat.sub_0_r in Hv. rewrite Hv. done.
    - intros p Hp. apply (observed_in_store req app). by eapply victims_observed.
    - apply (NoDup_Permutation_proper _ _ (reverse_Permutation _)).
      rewrite <- fmap_reverse.
      apply (sublist_NoDup _ (podKey <$> items)); [done|].
      apply fmap_sublist, victims_sublist. }
  rewrite Hpass. simpl. count_calls. simpl. rewrite !app_nil_r.
  split; [done|]. split; [done|]. split; [|done].
  rewrite observed_shrunk, observed_received. fold items.
  exact (filter_without_tail items 0 HndI).
Qed.

Lemma negative_size_deletes_all_witness :
  let w := exampleCluster (-2) 3 [] in
  let items := observed exampleReq (exampleApp (-2)) w in
  let w' := snd (Reconcile exampleReq w) in
  fst (Reconcile exampleReq w) = Panicked
  ∧ deletions (calls w') = deletions (calls w) ++ reverse items
  ∧ observed exampleReq (exampleApp (-2)) w' = []
  ∧ apps w' = apps w
  ∧ statusWrites (calls w') = statusWrites (calls w).
Proof.
  refine (negative_size_deletes_all exampleReq (exampleApp (-2))
            (exampleCluster (-2) 3 []) _ _ _ _).
  - by split.
  - apply exampleCluster_unique.
  - simpl. lia.
  - apply quiet_nil.
Defined.

(** ** A pod that is already gone *)

(** X14. [deletePods] does not tolerate a pod of its list that the store no
    longer holds: when the last element of the list is gone, the Delete for
    it fails with the store's not-found error, which [deletePods] logs and
    returns; the pods stay as they were and no other element is
    attempted. *)
Theorem deletePods_missing_pod podList desiredSize w p :
  let w' := snd (deletePods podList (Z.of_nat (length (Items podList))) desiredSize w) in
  desiredSize < Z.of_nat (length (Items podList)) →
  Items podList !! (length (Items podList) - 1)%nat = Some p →
  podKey p ∉ podKey <$> pods w →
  quiet 1 (faults w) →
  fst (deletePods podList (Z.of_nat (length (Items podList))) desiredSize w)
    = Returned (Some ErrNotFound)
  ∧ pods w' = pods w
  ∧ deletions (calls w') = deletions (calls w) ++ [p]
  ∧ logged w' = logged w ++ [(ErrNotFound, "Failed to delete pod")].
Proof.
  intros w' Hlt Hp Hgone Hq. subst w'. unfold deletePods.
  pose proof (lookup_lt_Some _ _ _ Hp) as Hlen.
  rewrite deleteLoop_eq, !decide_True by lia.
  replace (Z.to_nat (Z.of_nat (length (Items podList)) - 1))
    with (length (Items podList) - 1)%nat by lia.
  rewrite Hp. unfold clientDelete. rewrite enter_quiet by done. simpl.
  rewrite decide_False by done. simpl. rewrite deletions_app. done.
Qed.

Lemma deletePods_missing_pod_witness :
  let podList := {| Items := newPods exampleReq (exampleApp 1) 0 3 |} in
  let w := exampleCluster 1 2 [] in
  let w' := snd (deletePods podList (Z.of_nat (length (Items podList))) 1 w) in
  fst (deletePods podList (Z.of_nat (length (Items podList))) 1 w)
    = Returned (Some ErrNotFound)
  ∧ pods w' = pods w
  ∧ deletions (calls w') = deletions (calls w) ++ [newPod exampleReq (exampleApp 1) 2]
  ∧ logged w' = logged w ++ [(ErrNotFound, "Failed to delete pod")].
Proof.
  refine (deletePods_missing_pod {| Items := newPods exampleReq (exampleApp 1) 0 3 |} 1
            (exampleCluster 1 2 []) (newPod exampleReq (exampleApp 1) 2) _ _ _ _).
  - simpl. lia.
  - done.
  - apply (bool_decide_unpack _). by vm_compute.
  - apply quiet_nil.
Defined.

(** ** Pod names across instances *)

Lemma chars_app (a b : string) :
  String.list_ascii_of_string (a +:+ b) =
  String.list_ascii_of_string a ++ String.list_ascii_of_string b.
Proof. induction a as [|c a IH]; [done|]. simpl. by rewrite IH. Qed.

Lemma chars_inj (a b : string) :
  String.list_ascii_of_string a = String.list_ascii_of_string b → a = b.
Proof.
  intros H. rewrite <- (String.string_of_list_ascii_of_string a).
  rewrite <- (String.string_of_list_ascii_of_string b). by rewrite H.
Qed.

(** A list is cut in one way only at its last separator. *)
Lemma cut_at_last {A} (sep : A) (l1 l2 d1 d2 : list A) :
  sep ∉ d1 → sep ∉ d2 → l1 ++ sep :: d1 = l2 ++ sep :: d2 → l1 = l2 ∧ d1 = d2.
Proof.
  revert l2. induction l1 as [|a l1 IH]; intros [|b l2] H1 H2 Heq; simpl in Heq.
  - by injection Heq.
  - injection Heq as <- Hd. exfalso. apply H1. rewrite Hd.
    apply elem_of_app. right. apply list_elem_of_here.
  - injection Heq as -> Hd. exfalso. apply H2. rewrite <- Hd.
    apply elem_of_app. right. apply list_elem_of_here.
  - injection Heq as -> Heq. destruct (IH l2 H1 H2 Heq) as [Hl Hd].
    by rewrite Hl, Hd.
Qed.

Lemma pretty_N_go_no_dash (x : N) : ∀ s,
  "-"%char ∉ String.list_ascii_of_string s →
  "-"%char ∉ String.list_ascii_of_string (pretty_N_go x s).
Proof.
  induction (N.lt_wf_0 x) as [x _ IH]; intros s Hs.
  assert (x = 0 ∨ 0 < x)%N as [->|Hpos] by lia.
  - by rewrite pretty_N_go_0.
  - rewrite pretty_N_go_step by done. apply IH; [by apply N.div_lt|].
    simpl. rewrite not_elem_of_cons. split; [|done].
    unfold pretty_N_char. by repeat case_match.
Qed.

(** The decimal form of a non-negative index has no dash. *)
Lemma pretty_no_dash (i : Z) :
  0 ≤ i → "-"%char ∉ String.list_ascii_of_string (pretty i).
Proof.
  intros Hi. destruct i as [|x|x]; [| |lia].
  - unfold pretty, pretty_Z. simpl. rewrite list_elem_of_singleton. done.
  - unfold pretty, pretty_Z, pretty, pretty_positive, pretty, pretty_N.
    rewrite decide_False by done. apply pretty_N_go_no_dash. simpl.
    apply not_elem_of_nil.
Qed.

(** X15. Two instances never share a pod name: the name [createPods] builds for
    a non-negative index tells both the instance name and the index. *)
Theorem podName_tells_instance app1 app2 i j :
  0 ≤ i → 0 ≤ j →
  podName app1 i = podName app2 j →
  Name (Meta app1) = Name (Meta app2) ∧ i = j.
Proof.
  intros Hi Hj Heq. unfold podName in Heq.
  apply (f_equal String.list_ascii_of_string) in Heq.
  rewrite !chars_app in Heq.
  change (String.list_ascii_of_string "-pod-")
    with (["-"; "p"; "o"; "d"]%char ++ ["-"%char]) in Heq.
  rewrite <- !app_assoc in Heq. rewrite !app_assoc in Heq.
  rewrite <- !(app_assoc _ ["-"%char]) in Heq. simpl in Heq.
  apply cut_at_last in Heq as [Hname Hdigits]; [| by apply pretty_no_dash..].
  apply app_inv_tail in Hname. apply chars_inj in Hname.
  apply chars_inj in Hdigits. apply (inj pretty) in Hdigits. done.
Qed.

Lemma podName_tells_instance_witness :
  Name (Meta (exampleApp 3)) = Name (Meta (exampleApp 7)) ∧ 12 = 12.
Proof.
  refine (podName_tells_instance (exampleApp 3) (exampleApp 7) 12 12 _ _ _).
  - lia.
  - lia.
  - done.
Defined.

(** ** The status after a pass *)

(** X7. On a cluster that holds the instance, whatever the store answers short
    of a not-found for the instance itself: a pass that returns no error
    leaves as the instance's status the names of the pods it listed at its
    start, one per pod, in listing order; a pass that returns an error or
    panics leaves the status as it was. *)
Theorem pass_status req app w :
  storedAs req app w →
  faults w !! 0%nat ≠ Some (Some ErrNotFound) →
  let r := fst (Reconcile req w) in
  let w' := snd (Reconcile req w) in
  (r = Returned (emptyResult, None) →
     statusNodes req w' = Some (podNames (observed req app w))
     ∧ length (podNames (observed req app w)) = length (observed req app w))
  ∧ (r ≠ Returned (emptyResult, None) → statusNodes req w' = statusNodes req w).
Proof.
  intros Hst Hfound r w'. subst r w'.
  pose proof (Reconcile_outcome req app w Hst) as Hout.
  assert (Hlen : length (podNames (observed req app w)) = length (observed req app w))
    by (unfold podNames; by rewrite length_fmap).
  pass_cases Hout;
    (split; [intros Hr'; try discriminate | intros Hr'; try done]);
    try (split; [|done]);
    try (apply (statusNodes_statusWritten req app); done).
  match goal with
  | He : faults w !! 0%nat = Some (Some ?e) |- _ => destruct e; try discriminate
  end.
  done.
Qed.

Lemma pass_status_witness :
  let w := exampleCluster 1 3 [] in
  let r := fst (Reconcile exampleReq w) in
  let w' := snd (Reconcile exampleReq w) in
  (r = Returned (emptyResult, None) →
     statusNodes exampleReq w' = Some (podNames (observed exampleReq (exampleApp 1) w))
     ∧ length (podNames (observed exampleReq (exampleApp 1) w))
       = length (observed exampleReq (exampleApp 1) w))
  ∧ (r ≠ Returned (emptyResult, None) → statusNodes exampleReq w' = statusNodes exampleReq w).
Proof.
  refine (pass_status exampleReq (exampleApp 1) (exampleCluster 1 3 []) _ _).
  - by split.
  - done.
Defined.
